(** * The iterative-LQR driver of [pypose.module.MPC]

    A shallow embedding of [MPC.forward] (src/pypose/module/mpc.py) and the
    properties of its iteration-and-selection logic.

    The driver is a Python method: it reads the attributes of [self], calls
    the LQR solver, may raise, and keeps a mutable [best] record.  It is
    embedded in a small monad that threads the driver object, propagates
    exceptions and records every LQR solve that is performed. *)

From Stdlib Require Import List ZArith Bool Lia QArith.
Import ListNotations.

Set Implicit Arguments.

(** ** Tensors, candidates and the driver object *)

Section Driver.

(** What a tensor stores, and the nodes of the autograd graph. *)
Variables Data Graph : Type.

(** Costs with the two operations the driver applies to them,
    [cost <= ...] and [... + self.eps]; the comparison is the truth value
    the [if] tests, that of a scalar. *)
Variable Cost : Type.
Variable cost_le : Cost -> Cost -> bool.
Variable cost_add : Cost -> Cost -> Cost.

(** The dynamics object, the cost weights, the initial state and the time
    step: the driver only hands them to the solver. *)
Variables System Quad Lin Init Dt : Type.

(** Failures of the LQR solver. *)
Variable Failure : Type.

(** A tensor as the driver sees it: [ndim] is read by the assertion, and
    [detach] gives the same data outside the graph, with no [grad_fn] and
    [requires_grad] false. *)
Record Tensor : Type := mkTensor {
  shape : list nat;
  storage : Data;
  requires_grad : bool;
  grad_fn : option Graph
}.

Definition ndim (t : Tensor) : nat := length (shape t).

Definition detach (t : Tensor) : Tensor :=
  {| shape := shape t; storage := storage t;
     requires_grad := false; grad_fn := None |}.

(** [(x, u, cost)], the result of one LQR solve. *)
Definition Candidate : Type := (Tensor * Tensor * Cost)%type.

(** The dictionary [best = {'u': u, 'cost': cost}]. *)
Record Best : Type := mkBest {
  best_u : Tensor;
  best_cost : Cost
}.

(** The attributes set by [MPC.__init__]. *)
Record MPC : Type := mkMPC {
  system : System;
  T : Z;
  step : Z;
  eps : Cost
}.

(** [pp.module.LQR]: [LQR system Q p T] is a solver instance, and applying
    it to [(x_init, dt, u)] is its call.  The class lives in another module
    of pypose; the driver is embedded over any solver, taken as a function
    of its arguments (a solve has no side effects, spec 4.1). *)
Variable LQR :
  System -> Quad -> Lin -> Z ->
  Init -> Dt -> option Tensor -> Failure + Candidate.

(** ** The monad of the driver *)

Inductive exn : Type :=
| AssertionError
| TypeError
| SolverError (e : Failure).

Inductive outcome (A : Type) : Type :=
| Ok (a : A)
| Raise (e : exn).
Arguments Raise {A} e.

(** One LQR solve: the nominal input it was given and what it returned. *)
Record Solve : Type := mkSolve {
  nominal : option Tensor;
  result : Failure + Candidate
}.

(** A computation runs on the driver object and gives an outcome, the
    driver object afterwards and the solves it performed, in order. *)
Definition M (A : Type) : Type := MPC -> outcome A * MPC * list Solve.

Definition ret {A} (a : A) : M A := fun self => (Ok a, self, []).

Definition raise {A} (e : exn) : M A := fun self => (Raise e, self, []).

Definition bind {A B} (m : M A) (f : A -> M B) : M B := fun self =>
  match m self with
  | (Ok a, self1, l1) =>
      let '(r, self2, l2) := f a self1 in (r, self2, l1 ++ l2)
  | (Raise e, self1, l1) => (Raise e, self1, l1)
  end.

Definition getattr {A} (field : MPC -> A) : M A :=
  fun self => (Ok (field self), self, []).

Definition assert (b : bool) : M unit :=
  if b then ret tt else raise AssertionError.

(** A failure of the solver propagates as an exception of the driver. *)
Definition propagate (r : Failure + Candidate) : outcome Candidate :=
  match r with
  | inr c => Ok c
  | inl e => Raise (SolverError e)
  end.

(** Calling a solver instance. *)
Definition call (lqr : Init -> Dt -> option Tensor -> Failure + Candidate)
    (x_init : Init) (dt : Dt) (u : option Tensor) : M Candidate :=
  fun self =>
    let r := lqr x_init dt u in (propagate r, self, [mkSolve u r]).

(** [best['u']], which raises when [best] is still [None]. *)
Definition subscript_u (best : option Best) : M Tensor :=
  match best with
  | Some b => ret (best_u b)
  | None => raise TypeError
  end.

Notation "x <- m ;; k" := (bind m (fun x => k))
  (at level 61, m at next level, right associativity).
Notation "' pat <- m ;; k" := (bind m (fun x => match x with pat => k end))
  (at level 61, pat pattern, m at next level, right associativity).

(** ** [MPC.forward] *)

(** The variables the loop carries from one iteration to the next. *)
Definition Locals : Type := (option Best * option Tensor)%type.

(** The body of [for i in range(self.step)]. *)
Definition body (Q : Quad) (p : Lin) (x_init : Init) (dt : Dt)
    (loc : Locals) : M Locals :=
  let '(best, u) := loc in
  let u := match u with
           | Some t => Some (detach t)
           | None => None
           end in
  sys <- getattr system ;;
  horizon <- getattr T ;;
  let lqr := LQR sys Q p horizon in
  '(x, u, cost) <- call lqr x_init dt u ;;
  _ <- assert ((ndim x =? ndim u)%nat && (ndim u =? 3)%nat) ;;
  match best with
  | None => ret (Some (mkBest u cost), Some u)
  | Some b =>
      tol <- getattr eps ;;
      if cost_le cost (cost_add (best_cost b) tol)
      then ret (Some (mkBest u cost), Some u)
      else ret (Some b, Some u)
  end.

(** [n] iterations of the body. *)
Fixpoint iterate (Q : Quad) (p : Lin) (x_init : Init) (dt : Dt)
    (n : nat) (loc : Locals) : M Locals :=
  match n with
  | O => ret loc
  | S k => loc' <- body Q p x_init dt loc ;; iterate Q p x_init dt k loc'
  end.

(** [range(self.step)] is empty when [self.step <= 0]. *)
Definition range_len (n : Z) : nat := Z.to_nat n.

Definition loop (Q : Quad) (p : Lin) (x_init : Init) (dt : Dt)
    (current_u : option Tensor) : M Locals :=
  n <- getattr step ;;
  iterate Q p x_init dt (range_len n) (None, current_u).

(** The nominal input of the last solve. *)
Definition terminal_input (best : option Best) (current_u : option Tensor)
    : M (option Tensor) :=
  n <- getattr step ;;
  if (1 <? n)%Z
  then (t <- subscript_u best ;; ret (Some t))
  else ret current_u.

Definition terminal (Q : Quad) (p : Lin) (x_init : Init) (dt : Dt)
    (current_u : option Tensor) : M Candidate :=
  sys <- getattr system ;;
  horizon <- getattr T ;;
  let _lqr := LQR sys Q p horizon in
  call _lqr x_init dt current_u.

Definition forward (Q : Quad) (p : Lin) (x_init : Init) (dt : Dt)
    (current_u : option Tensor) : M Candidate :=
  '(best, _) <- loop Q p x_init dt current_u ;;
  current_u <- terminal_input best current_u ;;
  terminal Q p x_init dt current_u.

End Driver.

Arguments Ok {Failure A} a.
Arguments Raise {Failure A} e.
Arguments AssertionError {Failure}.
Arguments TypeError {Failure}.
Arguments ret {Data Graph Cost System Failure A} a _.
Arguments raise {Data Graph Cost System Failure A} e _.
Arguments getattr {Data Graph Cost System Failure A} field _.
Arguments assert {Data Graph Cost System Failure} b _.
Arguments subscript_u {Data Graph Cost System Failure} best _.
Arguments terminal_input {Data Graph Cost System Failure} best current_u _.

(** The update of [best] at the end of an iteration that produced
    [(u, cost)]. *)
Definition select {Data Graph Cost : Type}
    (cost_le : Cost -> Cost -> bool) (cost_add : Cost -> Cost -> Cost)
    (tol : Cost) (best : option (Best Data Graph Cost))
    (u : Tensor Data Graph) (cost : Cost) : Best Data Graph Cost :=
  match best with
  | None => mkBest u cost
  | Some b =>
      if cost_le cost (cost_add (best_cost b) tol) then mkBest u cost else b
  end.

(** A nominal input that carries no differentiation history and asks for
    none. *)
Definition detached {Data Graph : Type} (u : option (Tensor Data Graph))
    : Prop :=
  forall t, u = Some t -> grad_fn t = None /\ requires_grad t = false.

(** The default tolerance, [eps=1e-4]. *)
Definition eps_default : Q := (1 # 10000)%Q.

(** ** The LQR solver of the spec *)

Section LQRSpec.

(** Vectors and matrices of the numeric backend; [dim] is the length of a
    vector. *)
Variables Vec Mat : Type.
Variable dim : Vec -> nat.
Variable zeros : Vec.

Variable Cost : Type.
Variable cost_zero : Cost.
Variable cost_add : Cost -> Cost -> Cost.

Variables Graph Dt : Type.
Variable node : Graph.

(** Modelled from the spec: the Dynamics Interface (2, 6), with
    [next_state = f(state, input, time_index)] and its Jacobians [A], [B]
    at a point. *)
Record Dynamics : Type := mkDynamics {
  state_transition : Vec -> Vec -> nat -> Vec;
  jacobians : Vec -> Vec -> nat -> Mat * Mat
}.

(** The Riccati-style update, which the spec leaves to the implementer:
    the cost-to-go at the end of the horizon, one backward step at a point
    [(x, u)] of the nominal trajectory giving the gains [(K_t, k_t)] and the
    cost-to-go before it, the control law
    [u_t = u_nominal_t + K_t (x_t - x_nominal_t) + k_t], and the quadratic
    cost of one time step. *)
Variables Gain Value : Type.
Variable value_T : Value.
Variable riccati :
  Mat * Mat -> Vec -> Vec -> Mat -> Vec -> Value -> Gain * Value.
Variable control : Gain -> Vec -> Vec -> Vec -> Vec.
Variable stage_cost : Mat -> Vec -> Vec -> Vec -> Cost.

Variable sys : Dynamics.

(** Modelled from the spec: step 2 of the LQR algorithm (4.1), the nominal
    inputs rolled through the true dynamics from time [t]. *)
Fixpoint rollout (t : nat) (x : Vec) (us : list Vec) : list Vec :=
  match us with
  | [] => [x]
  | u :: us' => x :: rollout (S t) (state_transition sys x u t) us'
  end.

(** Modelled from the spec: step 2 of the LQR algorithm (4.1), [A_t] and
    [B_t] at each time step of the nominal trajectory. *)
Fixpoint linearize (t : nat) (xs us : list Vec) : list (Mat * Mat) :=
  match xs, us with
  | x :: xs', u :: us' => jacobians sys x u t :: linearize (S t) xs' us'
  | _, _ => []
  end.

(** One time step of the backward recursion with what it needs: the
    linearization, the nominal state and input, and the cost weights. *)
Definition Linearized : Type := (Mat * Mat * (Vec * Vec) * (Mat * Vec))%type.

(** Modelled from the spec: step 3 of the LQR algorithm (4.1), the
    backward recursion from [t = T-1] down to [0]. *)
Fixpoint backward (steps : list Linearized) : list Gain * Value :=
  match steps with
  | [] => ([], value_T)
  | (AB, (x, u), (Qt, pt)) :: steps' =>
      let '(gains, V) := backward steps' in
      let '(g, V') := riccati AB x u Qt pt V in
      (g :: gains, V')
  end.

(** One time step of the forward recursion with what it needs: the gains,
    the nominal input and state, and the cost weights. *)
Definition Stage : Type := (Gain * (Vec * Vec) * (Mat * Vec))%type.

(** Modelled from the spec: step 4 of the LQR algorithm (4.1), the forward
    recursion from [x_init] through the true dynamics, accumulating the
    cost. *)
Fixpoint forward_pass (t : nat) (x : Vec) (stages : list Stage)
    : list Vec * list Vec * Cost :=
  match stages with
  | [] => ([x], [], cost_zero)
  | (g, (u_nom, x_nom), (Qt, pt)) :: stages' =>
      let u := control g u_nom x x_nom in
      let '(xs, us, c) :=
        forward_pass (S t) (state_transition sys x u t) stages' in
      (x :: xs, u :: us, cost_add (stage_cost Qt pt x u) c)
  end.

(** Modelled from the spec: steps 2 to 5 of the LQR algorithm (4.1) for
    one element of the batch. *)
Definition solve_one (x0 : Vec) (u_nom : list Vec)
    (Qs : list Mat) (ps : list Vec) : list Vec * list Vec * Cost :=
  let x_nom := rollout 0 x0 u_nom in
  let lin := linearize 0 x_nom u_nom in
  let gains :=
    fst (backward
           (combine (combine lin (combine x_nom u_nom)) (combine Qs ps))) in
  forward_pass 0 x0
    (combine (combine gains (combine u_nom x_nom)) (combine Qs ps)).

(** The trajectories of a batch, along (batch, time, vector). *)
Definition Traj : Type := list (list Vec).

(** Modelled from the spec: the (batch, time, vector) tensor a solve returns
    for the trajectories of a batch, attached to the graph of the solve. *)
Definition tensor_of (b : Traj) : Tensor Traj Graph :=
  mkTensor [length b; length (hd [] b); dim (hd zeros (hd [] b))]
           b true (Some node).

(** Every trajectory of the batch has [n] time steps. *)
Definition time_len (n : nat) (b : Traj) : bool :=
  forallb (fun tr => length tr =? n)%nat b.

(** Modelled from the spec: the preconditions of the LQR contract (4.1),
    along the batch and time dimensions. *)
Definition shapes_ok (T B : nat) (Q : list (list Mat)) (p u : Traj)
    : bool :=
  (length Q =? B)%nat && (length p =? B)%nat && (length u =? B)%nat
  && forallb (fun q => length q =? T)%nat Q
  && time_len T p && time_len T u.

(** Modelled from the spec: the configuration error of the taxonomy (7). *)
Inductive ConfigError : Type := ShapeMismatch.

(** Modelled from the spec: step 1 of the LQR algorithm (4.1), a missing
    nominal input is initialised to zeros of the correct shape. *)
Definition nominal_or_zeros (T B : nat) (u : option (Tensor Traj Graph))
    : Traj :=
  match u with
  | Some t => storage t
  | None => repeat (repeat zeros T) B
  end.

(** Modelled from the spec: the LQR Solver (4.1), which [pp.module.LQR]
    implements.  A missing nominal input is
    initialised to zeros, a shape mismatch is signalled before any
    computation, and the cost is summed over the horizon and the batch. *)
Definition LQR_spec (Q : list (list Mat)) (p : Traj) (T : Z)
    (x_init : list Vec) (dt : Dt) (u : option (Tensor Traj Graph))
    : ConfigError + Candidate Traj Graph Cost :=
  let n := Z.to_nat T in
  let B := length x_init in
  let u_nom := nominal_or_zeros n B u in
  if shapes_ok n B Q p u_nom then
    let sols :=
      map (fun '(x0, un, (Qs, ps)) => solve_one x0 un Qs ps)
          (combine (combine x_init u_nom) (combine Q p)) in
    inr (tensor_of (map (fun s => fst (fst s)) sols),
         tensor_of (map (fun s => snd (fst s)) sols),
         fold_right cost_add cost_zero (map snd sols))
  else inl ShapeMismatch.

(** A (batch, time, vector) tensor for a batch of [B] trajectories of
    [n] time steps. *)
Definition well_shaped (B n : nat) (t : Tensor Traj Graph) : Prop :=
  ndim t = 3%nat /\
  length (storage t) = B /\
  Forall (fun tr => length tr = n) (storage t).

End LQRSpec.

(** ** The solver of the spec for one state and one input

    Vectors are lists of rationals and matrices lists of rows.  The state
    and the input are 1-vectors, [p_t] is a 2-vector and [Q_t] a 2 x 2
    matrix over [(state, input)].  Results are kept in lowest terms
    ([Qred]). *)

Definition entry (m : list (list Q)) (i j : nat) : Q :=
  nth j (nth i m []) 0%Q.

Definition scalar (v : list Q) : Q := nth 0 v 0%Q.

(** Modelled from the spec: the Riccati-style update of step 3 (4.1) for one
    state and one input, in the perturbations around the nominal point
    [(x, u)]: the derivatives of the stage cost there, the expansion
    [Q_x, Q_u, Q_xx, Q_uu, Q_ux] through [x' = A x + B u], the gains
    [K = - Q_ux / Q_uu] and [k = - Q_u / Q_uu], and the cost-to-go
    [(Q_xx + K Q_ux, Q_x + K Q_u)]. *)
Definition scalar_riccati (AB : list (list Q) * list (list Q))
    (x u : list Q) (Qt : list (list Q)) (pt : list Q) (V : Q * Q)
    : (Q * Q) * (Q * Q) :=
  let a := entry (fst AB) 0 0 in
  let b := entry (snd AB) 0 0 in
  let l_x :=
    (entry Qt 0 0 * scalar x + entry Qt 0 1 * scalar u + nth 0 pt 0)%Q in
  let l_u :=
    (entry Qt 1 0 * scalar x + entry Qt 1 1 * scalar u + nth 1 pt 0)%Q in
  let Q_x := (l_x + a * snd V)%Q in
  let Q_u := (l_u + b * snd V)%Q in
  let Q_xx := (entry Qt 0 0 + a * fst V * a)%Q in
  let Q_uu := (entry Qt 1 1 + b * fst V * b)%Q in
  let Q_ux := (entry Qt 1 0 + b * fst V * a)%Q in
  let K := Qred (- Q_ux / Q_uu) in
  let k := Qred (- Q_u / Q_uu) in
  ((K, k), (Qred (Q_xx + K * Q_ux), Qred (Q_x + K * Q_u))).

(** Modelled from the spec: the control law of step 4 (4.1),
    [u_t = u_nominal_t + K_t (x_t - x_nominal_t) + k_t]. *)
Definition scalar_control (g : Q * Q) (u_nom x x_nom : list Q) : list Q :=
  [Qred (scalar u_nom + fst g * (scalar x - scalar x_nom) + snd g)].

(** Modelled from the spec: the quadratic cost of one time step (3),
    [1/2 tau' Q_t tau + p_t' tau] with [tau = (x, u)]. *)
Definition scalar_cost (Qt : list (list Q)) (pt x u : list Q) : Q :=
  Qred ((1 # 2) * (entry Qt 0 0 * scalar x * scalar x
                    + (entry Qt 0 1 + entry Qt 1 0) * scalar x * scalar u
                    + entry Qt 1 1 * scalar u * scalar u)
        + nth 0 pt 0 * scalar x + nth 1 pt 0 * scalar u).

Definition scalar_LQR :
    Dynamics (list Q) (list (list Q)) ->
    list (list (list (list Q))) -> list (list (list Q)) -> Z ->
    list (list Q) -> Q -> option (Tensor (list (list (list Q))) unit) ->
    ConfigError + Candidate (list (list (list Q))) unit Q :=
  LQR_spec (@length Q) [0%Q] 0%Q Qplus tt (0, 0)%Q
           scalar_riccati scalar_control scalar_cost.

(** The system [x' = x + u^3] with its Jacobians [A = 1], [B = 3 u^2]. *)
Definition cubic : Dynamics (list Q) (list (list Q)) :=
  mkDynamics
    (fun x u _ => [Qred (scalar x + scalar u * scalar u * scalar u)])
    (fun x u _ => ([[1%Q]], [[Qred (3 * scalar u * scalar u)]])).

(** One problem over a horizon of two steps: no cost at the first step, the
    cost [1/2 (x^2 + u^2)] at the second, from [x = 1] with the nominal
    inputs [(1, 0)]. *)
Definition cubic_Q : list (list (list (list Q))) :=
  [[ [[0; 0]; [0; 0]]; [[1; 0]; [0; 1]] ]]%Q.

Definition cubic_p : list (list (list Q)) := [[ [0; 0]; [0; 0] ]]%Q.

Definition cubic_x_init : list (list Q) := [[1]]%Q.

Definition cubic_u : Tensor (list (list (list Q))) unit :=
  mkTensor [1; 2; 1]%nat [[ [1]; [0] ]]%Q false None.

Definition cubic_mpc (n : Z) (tol : Q)
    : MPC Q (Dynamics (list Q) (list (list Q))) :=
  mkMPC cubic 2 n tol.

Definition cubic_forward (n : Z) (tol : Q) :=
  forward Qle_bool Qplus scalar_LQR cubic_Q cubic_p cubic_x_init
          (1 # 100)%Q (Some cubic_u) (cubic_mpc n tol).

Definition cubic_iterate (k : nat) (n : Z) (tol : Q) :=
  iterate Qle_bool Qplus scalar_LQR cubic_Q cubic_p cubic_x_init
          (1 # 100)%Q k (None, Some cubic_u) (cubic_mpc n tol).

(** ** A solver scripted by the costs of its iterates

    Iterate [k+1] is what a solve returns from iterate [k] as nominal input
    (from no input at all for the first), and [nth k costs] is its cost.
    Tensors store the number of the iterate. *)

Definition iterate_of (u : option (Tensor nat unit)) : nat :=
  match u with
  | None => 0
  | Some t => storage t
  end.

Definition scripted_x (horizon : Z) (k : nat) : Tensor nat unit :=
  mkTensor [1; S (Z.to_nat horizon); 1]%nat k true (Some tt).

Definition scripted_u (horizon : Z) (k : nat) : Tensor nat unit :=
  mkTensor [1; Z.to_nat horizon; 1]%nat k true (Some tt).

Definition scripted (costs : list Q)
    (sys Qw pw : unit) (horizon : Z) (x_init dt : unit)
    (u : option (Tensor nat unit)) : unit + Candidate nat unit Q :=
  let k := iterate_of u in
  inr (scripted_x horizon (S k), scripted_u horizon (S k), nth k costs 0%Q).

(** The driver built as [MPC(system, 5, step, eps)] on a scripted solver,
    called without a nominal input. *)
Definition scripted_mpc (n : Z) (tol : Q) : MPC Q unit := mkMPC tt 5 n tol.

Definition scripted_forward (costs : list Q) (n : Z) (tol : Q) :=
  forward Qle_bool Qplus (scripted costs) tt tt tt tt None
          (scripted_mpc n tol).

Definition scripted_loop (costs : list Q) (n : Z) (tol : Q) :=
  loop Qle_bool Qplus (scripted costs) tt tt tt tt None (scripted_mpc n tol).

Definition scripted_iterate (costs : list Q) (k : nat) (n : Z) (tol : Q) :=
  iterate Qle_bool Qplus (scripted costs) tt tt tt tt k (None, None)
          (scripted_mpc n tol).

(** The cost a call returned, and the cost in [best] after [k] iterations. *)
Definition returned_cost {Data Graph Cost System Failure : Type}
    (r : outcome Failure (Candidate Data Graph Cost) * MPC Cost System
         * list (Solve Data Graph Cost Failure)) : option Cost :=
  match r with
  | (Ok (_, _, c), _, _) => Some c
  | _ => None
  end.

Definition best_cost_of {Data Graph Cost System Failure : Type}
    (r : outcome Failure (Locals Data Graph Cost) * MPC Cost System
         * list (Solve Data Graph Cost Failure)) : option Cost :=
  match r with
  | (Ok (Some b, _), _, _) => Some (best_cost b)
  | _ => None
  end.

(** The final solve starts from [best.u]: the last solve of the call has
    [best['u']] as its nominal input whenever the loop completes. *)
Definition final_solve_from_best {Data Graph Cost System Quad Lin Init Dt
    Failure : Type} (cost_le : Cost -> Cost -> bool)
    (cost_add : Cost -> Cost -> Cost)
    (LQR : System -> Quad -> Lin -> Z -> Init -> Dt ->
           option (Tensor Data Graph) -> Failure + Candidate Data Graph Cost)
    (Q : Quad) (p : Lin) (x_init : Init) (dt : Dt)
    (current_u : option (Tensor Data Graph)) (self : MPC Cost System)
    : Prop :=
  forall best u self' l,
    loop cost_le cost_add LQR Q p x_init dt current_u self
      = (Ok (best, u), self', l) ->
    exists b r,
      best = Some b /\
      snd (forward cost_le cost_add LQR Q p x_init dt current_u self)
        = l ++ [mkSolve (Some (best_u b)) r].

(** The same driver configured with [step = 1]. *)
Definition single_step {Cost System : Type} (self : MPC Cost System)
    : MPC Cost System :=
  mkMPC (system self) (T self) 1 (eps self).

(** The returned cost is within [eps] of the cost returned with
    [step = 1]. *)
Definition never_worse_than_single_step {Data Graph Cost System Quad Lin
    Init Dt Failure : Type} (cost_le : Cost -> Cost -> bool)
    (cost_add : Cost -> Cost -> Cost)
    (LQR : System -> Quad -> Lin -> Z -> Init -> Dt ->
           option (Tensor Data Graph) -> Failure + Candidate Data Graph Cost)
    (Q : Quad) (p : Lin) (x_init : Init) (dt : Dt)
    (current_u : option (Tensor Data Graph)) (self : MPC Cost System)
    : Prop :=
  forall c c1,
    returned_cost
      (forward cost_le cost_add LQR Q p x_init dt current_u self) = Some c ->
    returned_cost
      (forward cost_le cost_add LQR Q p x_init dt current_u
         (single_step self)) = Some c1 ->
    cost_le c (cost_add c1 (eps self)) = true.


(** ** More of [MPC]: the constructor, and what a call records *)

(** [MPC.__init__(self, system, T, step=10, eps=1e-4)], with rational
    tolerances; an argument left out is [None]. *)
Definition __init__ {System : Type} (system : System) (T : Z)
    (step : option Z) (eps : option Q) : MPC Q System :=
  mkMPC system T
        (match step with Some n => n | None => 10%Z end)
        (match eps with Some e => e | None => eps_default end).

(** [assert x.ndim == u.ndim == 3] on what a solve returned. *)
Definition asserted {Data Graph Cost Failure : Type}
    (r : Failure + Candidate Data Graph Cost) : bool :=
  match r with
  | inr (x, u, _) => ((ndim x =? ndim u) && (ndim u =? 3))%nat
  | inl _ => false
  end.

(** Solves that warm-start one another: each starts from the detached
    input trajectory the one before returned, the first from [prev]
    detached, and nothing follows a failed solve. *)
Fixpoint chained {Data Graph Cost Failure : Type}
    (prev : option (Tensor Data Graph))
    (l : list (Solve Data Graph Cost Failure)) : Prop :=
  match l with
  | [] => True
  | s :: l' =>
      nominal s = option_map (@detach Data Graph) prev /\
      match result s with
      | inr (_, u, _) => chained (Some u) l'
      | inl _ => l' = []
      end
  end.

(** The costs of the solves that succeeded never increase from one solve
    to the next. *)
Definition costs_never_increase {Data Graph Failure : Type}
    (l : list (Solve Data Graph Q Failure)) : Prop :=
  forall l1 s1 s2 l2 x1 u1 c1 x2 u2 c2,
    l = l1 ++ s1 :: s2 :: l2 ->
    result s1 = inr (x1, u1, c1) ->
    result s2 = inr (x2, u2, c2) ->
    (c2 <= c1)%Q.

(** A scripted solver that fails from iterate [k] on, and one whose
    iterate [k] comes back without its batch dimension. *)
Definition scripted_failing (k : nat) (costs : list Q)
    (sys Qw pw : unit) (horizon : Z) (x_init dt : unit)
    (u : option (Tensor nat unit)) : unit + Candidate nat unit Q :=
  if (k <=? iterate_of u)%nat then inl tt
  else scripted costs sys Qw pw horizon x_init dt u.

Definition scripted_flat (k : nat) (costs : list Q)
    (sys Qw pw : unit) (horizon : Z) (x_init dt : unit)
    (u : option (Tensor nat unit)) : unit + Candidate nat unit Q :=
  if (iterate_of u =? k)%nat
  then inr (mkTensor [S (Z.to_nat horizon); 1]%nat (S k) true (Some tt),
            mkTensor [Z.to_nat horizon; 1]%nat (S k) true (Some tt),
            nth k costs 0%Q)
  else scripted costs sys Qw pw horizon x_init dt u.

(** ** [Quad.state_transition] (examples/module/mpc/quad4.py)

    The quadrotor handed to the driver as its [system].  The numbers of the
    backend and their operations are parameters; a state is the list of its
    twelve components and an input the list of its four, as the unpacking
    of [state.squeeze()] and [input.squeeze()] reads them. *)

Declare Scope backend_scope.
Delimit Scope backend_scope with backend.

Module Quad.
Section Backend.

Variable F : Type.
Variables add sub mul div : F -> F -> F.
Variables sin cos tan : F -> F.

(** The literals [0.5], [2] and [6.0]. *)
Variables half two six : F.

Local Notation "a + b" := (add a b) : backend_scope.
Local Notation "a - b" := (sub a b) : backend_scope.
Local Notation "a * b" := (mul a b) : backend_scope.
Local Notation "a / b" := (div a b) : backend_scope.
Local Open Scope backend_scope.

(** The attributes set by [Quad.__init__]: [_tau], the rows of [_J], [_m]
    and [_g]. *)
Record params : Type := mkParams {
  _tau : F;
  _J : (F * F * F) * (F * F * F) * (F * F * F);
  _m : F;
  _g : F
}.

(** The exception of unpacking a tensor into a wrong number of names. *)
Inductive unpack_exn : Type := UnpackError.

(** The inner function [dynamics(state, input)]. *)
Definition dynamics (self : params) (state input : list F)
    : unpack_exn + list F :=
  match state with
  | [roll; pitch; yaw; wx; wy; wz; vx; vy; vz; x; y; z] =>
      match input with
      | [thrust; mx; my; mz] =>
          let '((Ix, _, _), (_, Iy, _), (_, _, Iz)) := _J self in
          let s_ph := sin roll in
          let s_th := sin pitch in
          let s_ps := sin yaw in
          let c_ph := cos roll in
          let c_th := cos pitch in
          let c_ps := cos yaw in
          let t_th := tan pitch in
          let r_Dot := wx + wz * (c_ph * t_th) + wy * (s_ph * t_th) in
          let p_Dot := wy * c_ph - wz * s_ph in
          let y_Dot := wz * (c_ph / c_th) + wy * (s_ph / c_th) in
          let wx_Dot := (Iy - Iz) / Ix * wz * wy + mx / Ix in
          let wy_Dot := (Iz - Ix) / Iy * wx * wz + my / Iy in
          let wz_Dot := (Ix - Iy) / Iz * wx * wy + mz / Iz in
          let vx_Dot := wz * vy - wy * vz - _g self * s_th in
          let vy_Dot := wx * vz - wz * vx + _g self * (s_ph * c_th) in
          let vz_Dot :=
            wy * vx - wx * vy + _g self * (c_th * c_ph)
            - thrust / _m self in
          let xDot :=
            vz * (s_ph * s_ps + c_ph * c_ps * s_th)
            - vy * (c_ph * s_ps - c_ps * s_ph * s_th)
            + vx * (c_ps * c_th) in
          let yDot :=
            vy * (c_ph * c_ps + s_ph * s_ps * s_th)
            - vz * (s_ph * c_ps - c_ph * s_ps * s_th)
            + vx * (s_ps * c_th) in
          let zDot :=
            vz * (c_ph * c_th) - vx * s_th + vy * (c_th * s_ph) in
          inr [r_Dot; p_Dot; y_Dot; wx_Dot; wy_Dot; wz_Dot;
               vx_Dot; vy_Dot; vz_Dot; xDot; yDot; zDot]
      | _ => inl UnpackError
      end
  | _ => inl UnpackError
  end.

(** [a + b] and [c * v] on tensors, component by component. *)
Definition tensor_add (a b : list F) : list F :=
  map (fun '(ai, bi) => ai + bi) (combine a b).

Definition scaled (c : F) (v : list F) : list F := map (fun vi => c * vi) v.

Definition times (v : list F) (c : F) : list F := map (fun vi => vi * c) v.

(** [Quad.state_transition(state, input, t)]: one Runge-Kutta step of
    [dynamics] under a constant input. *)
Definition state_transition (self : params) (state input : list F)
    : unpack_exn + list F :=
  match dynamics self state input with
  | inl e => inl e
  | inr f1 =>
  match dynamics self (tensor_add state (scaled (half * _tau self) f1))
                 input with
  | inl e => inl e
  | inr f2 =>
  match dynamics self (tensor_add state (scaled (half * _tau self) f2))
                 input with
  | inl e => inl e
  | inr f3 =>
  match dynamics self (tensor_add state (scaled (_tau self) f3)) input with
  | inl e => inl e
  | inr f4 =>
      inr (tensor_add state
             (times (tensor_add
                       (tensor_add (tensor_add f1 (scaled two f2))
                                   (scaled two f3))
                       f4)
                    (_tau self / six)))
  end end end end.

(** [Quad.observation(state, input, t)]. *)
Definition observation (self : params) (state input : list F) : list F :=
  state.

End Backend.
End Quad.

(** ** [compute_loss] (multicoptor_controller_tuner.py, under
    examples/module/controller_parameters_tuner)

    The controller, the dynamics and the tensor operations are parameters. *)

Module Tuner.
Section Backend.

(** Tensors, and the scalars [torch.norm] returns. *)
Variables Tens Num : Type.
Variable slice : Tens -> nat -> nat -> Tens.
Variable tensor_sub : Tens -> Tens -> Tens.
Variable norm : Tens -> Num.
Variable num_add : Num -> Num -> Num.
Variable num_div : Num -> Z -> Num.
Variable of_int : Z -> Num.

Variables Params Control Dt : Type.

(** A reference state: position, velocity, acceleration, pose, angular
    velocity and angular acceleration. *)
Definition RefState : Type := (Tens * Tens * Tens * Tens * Tens * Tens)%type.

(** [controller.get_control(parameters, state, ref_state,
    feed_forward_quantity)] and [dynamic_system.state_transition(state,
    input, dt)]. *)
Variable get_control : Params -> Tens -> RefState -> option Tens -> Control.
Variable state_transition : Tens -> Control -> Dt -> Tens.

(** The value of [loss]: the integer it starts as, a tensor once a norm
    was added to it, or the float an integer division gives. *)
Inductive pynum : Type :=
| PyInt (z : Z)
| PyTensor (t : Num)
| PyFloat (t : Num).

Inductive arith_exn : Type := ZeroDivisionError.

(** [loss += t] for a tensor [t]. *)
Definition iadd (loss : pynum) (t : Num) : pynum :=
  match loss with
  | PyInt z => PyTensor (num_add (of_int z) t)
  | PyTensor a => PyTensor (num_add a t)
  | PyFloat a => PyTensor (num_add a t)
  end.

(** [loss / n] for an integer [n]. *)
Definition truediv (loss : pynum) (n : Z) : arith_exn + pynum :=
  match loss with
  | PyInt z =>
      if (n =? 0)%Z then inl ZeroDivisionError
      else inr (PyFloat (num_div (of_int z) n))
  | PyTensor a => inr (PyTensor (num_div a n))
  | PyFloat a =>
      if (n =? 0)%Z then inl ZeroDivisionError
      else inr (PyFloat (num_div a n))
  end.

(** The body of [for index, ref_state in enumerate(ref_states)], over the
    references that are left. *)
Fixpoint track (controller_parameters : Params) (dt : Dt)
    (ref_states : list RefState) (system_state : Tens) (loss : pynum)
    : Tens * pynum :=
  match ref_states with
  | [] => (system_state, loss)
  | ref_state :: rest =>
      let '(ref_position, _, _, _, _, _) := ref_state in
      let controller_input :=
        get_control controller_parameters system_state ref_state None in
      let system_new_state :=
        state_transition system_state controller_input dt in
      let position := slice system_new_state 0 3 in
      track controller_parameters dt rest system_new_state
            (iadd loss (norm (tensor_sub ref_position position)))
  end.

Definition compute_loss (controller_parameters : Params)
    (initial_state : Tens) (ref_states : list RefState) (dt : Dt)
    : arith_exn + pynum :=
  let loss := PyInt 0 in
  let system_state := initial_state in
  truediv (snd (track controller_parameters dt ref_states system_state loss))
          (Z.of_nat (length ref_states)).

End Backend.
End Tuner.

(** [b] is reached from [c] in [n] iterations, each of which leaves the
    cost in [best] as it is or replaces it by one that passed the test
    [cost <= best.cost + eps]. *)
Fixpoint replaced_within {Cost : Type} (cost_le : Cost -> Cost -> bool)
    (cost_add : Cost -> Cost -> Cost) (tol : Cost) (n : nat) (c b : Cost)
    : Prop :=
  match n with
  | O => b = c
  | S k =>
      exists b',
        replaced_within cost_le cost_add tol k c b' /\
        (b = b' \/ cost_le b (cost_add b' tol) = true)
  end.

(** Only the final solve of a call is in the graph of its result: the
    nominal input of the final solve carries no history of an earlier
    solve of the call that returned it. *)
Definition only_final_solve_retained {Data Graph Cost Failure : Type}
    (l : list (Solve Data Graph Cost Failure)) : Prop :=
  forall l0 s s0 x u c,
    l = l0 ++ [s] ->
    In s0 l0 ->
    result s0 = inr (x, u, c) ->
    nominal s = Some u ->
    grad_fn u = None.

(** [cost_le] compares any two costs in [ordered], and is transitive. *)
Definition total_on {Cost : Type} (cost_le : Cost -> Cost -> bool)
    (ordered : Cost -> Prop) : Prop :=
  (forall a b, ordered a -> ordered b ->
     cost_le a b = true \/ cost_le b a = true) /\
  (forall a b c,
     cost_le a b = true -> cost_le b c = true -> cost_le a c = true).

(** * Properties *)

Section DriverProperties.

Variables Data Graph Cost : Type.
Variable cost_le : Cost -> Cost -> bool.
Variable cost_add : Cost -> Cost -> Cost.
Variables System Quad Lin Init Dt Failure : Type.
Variable LQR :
  System -> Quad -> Lin -> Z ->
  Init -> Dt -> option (Tensor Data Graph) ->
  Failure + Candidate Data Graph Cost.

Variables (Q : Quad) (p : Lin) (x_init : Init) (dt : Dt).

Local Abbreviation body' := (body cost_le cost_add LQR Q p x_init dt).
Local Abbreviation iterate' := (iterate cost_le cost_add LQR Q p x_init dt).
Local Abbreviation loop' := (loop cost_le cost_add LQR Q p x_init dt).
Local Abbreviation terminal' := (terminal LQR Q p x_init dt).
Local Abbreviation forward' := (forward cost_le cost_add LQR Q p x_init dt).
Local Abbreviation select' := (select cost_le cost_add).
Local Abbreviation solver self := (LQR (system self) Q p (T self) x_init dt).

(** One iteration, run. *)
Lemma body_run best u self :
  body' (best, u) self =
  let u0 := option_map (@detach Data Graph) u in
  let r := solver self u0 in
  match r with
  | inl e => (Raise (SolverError e), self, [mkSolve u0 r])
  | inr (x, u', cost) =>
      if ((ndim x =? ndim u') && (ndim u' =? 3))%nat
      then (Ok (Some (select' (eps self) best u' cost), Some u'),
            self, [mkSolve u0 r])
      else (Raise AssertionError, self, [mkSolve u0 r])
  end.
Proof.
  unfold body, bind, getattr, call. cbn.
  change (match u with Some t => Some (detach t) | None => None end)
    with (option_map (@detach Data Graph) u).
  destruct (LQR _ _ _ _ _ _ _) as [e | [[x u'] cost]]; cbn; [reflexivity|].
  destruct ((ndim x =? ndim u') && (ndim u' =? 3))%nat; cbn; [|reflexivity].
  destruct best as [b|]; cbn; [|reflexivity].
  destruct (cost_le _ _); reflexivity.
Qed.

(** The driver object is only read. *)
Lemma body_self loc self : snd (fst (body' loc self)) = self.
Proof.
  destruct loc as [best u]. rewrite body_run. cbn.
  destruct (LQR _ _ _ _ _ _ _) as [e | [[x u'] cost]]; [reflexivity|].
  destruct ((ndim x =? ndim u') && (ndim u' =? 3))%nat; reflexivity.
Qed.

Lemma iterate_self n : forall loc self,
  snd (fst (iterate' n loc self)) = self.
Proof.
  induction n as [|n IH]; intros loc self; cbn; [reflexivity|].
  unfold bind. pose proof (body_self loc self) as Hb.
  destruct (body' loc self) as [[[loc'|e] s1] l1]; cbn in *; [|exact Hb].
  subst s1. specialize (IH loc' self).
  destruct (iterate' n loc' self) as [[r s2] l2]. exact IH.
Qed.

Lemma iterate_S n loc self :
  iterate' (S n) loc self = bind (body' loc) (iterate' n) self.
Proof. reflexivity. Qed.

(** The last of [S n] iterations is one more run of the body. *)
Lemma iterate_snoc n : forall loc self,
  iterate' (S n) loc self = bind (iterate' n loc) body' self.
Proof.
  induction n as [|n IH]; intros loc self.
  - cbn. unfold bind, ret.
    destruct (body' loc self) as [[[loc'|e] s1] l1]; cbn;
      [rewrite app_nil_r|]; reflexivity.
  - rewrite (iterate_S (S n)). unfold bind. rewrite (iterate_S n).
    unfold bind.
    destruct (body' loc self) as [[[loc'|e] s1] l1]; [|reflexivity].
    rewrite IH. unfold bind.
    destruct (iterate' n loc' s1) as [[[loc2|e] s2] l2]; [|reflexivity].
    destruct (body' loc2 s2) as [[r s3] l3].
    rewrite app_assoc. reflexivity.
Qed.

(** [k + m] iterations are [k] iterations followed by [m] more: the state
    after the first [k] iterations of a longer loop is [iterate k]. *)
Lemma iterate_add k m : forall loc self,
  iterate' (k + m) loc self = bind (iterate' k loc) (iterate' m) self.
Proof.
  induction k as [|k IH]; intros loc self.
  - cbn. unfold bind, ret.
    destruct (iterate' m loc self) as [[r s] l]. reflexivity.
  - change (S k + m)%nat with (S (k + m)).
    rewrite (iterate_S (k + m)). unfold bind. rewrite (iterate_S k).
    unfold bind.
    destruct (body' loc self) as [[[loc'|e] s1] l1]; [|reflexivity].
    rewrite IH. unfold bind.
    destruct (iterate' k loc' s1) as [[[loc2|e] s2] l2]; [|reflexivity].
    destruct (iterate' m loc2 s2) as [[r s3] l3].
    rewrite app_assoc. reflexivity.
Qed.

(** One more iteration after [k] completed ones. *)
Lemma iterate_next k loc self best u self' l :
  iterate' k loc self = (Ok (best, u), self', l) ->
  iterate' (S k) loc self =
  let u0 := option_map (@detach Data Graph) u in
  let r := solver self u0 in
  match r with
  | inl e => (Raise (SolverError e), self, l ++ [mkSolve u0 r])
  | inr (x, u', cost) =>
      if ((ndim x =? ndim u') && (ndim u' =? 3))%nat
      then (Ok (Some (select' (eps self) best u' cost), Some u'),
            self, l ++ [mkSolve u0 r])
      else (Raise AssertionError, self, l ++ [mkSolve u0 r])
  end.
Proof.
  intros Hk. pose proof (iterate_self k loc self) as Hs.
  rewrite Hk in Hs. cbn in Hs. subst self'.
  rewrite iterate_snoc. unfold bind. rewrite Hk, body_run. cbn.
  destruct (LQR _ _ _ _ _ _ _) as [e | [[x u'] cost]]; [reflexivity|].
  destruct ((ndim x =? ndim u') && (ndim u' =? 3))%nat; reflexivity.
Qed.

(** After at least one completed iteration [best] is set and the nominal
    input is a tensor. *)
Lemma iterate_best_set n loc self best u self' l :
  iterate' (S n) loc self = (Ok (best, u), self', l) ->
  exists b t, best = Some b /\ u = Some t.
Proof.
  rewrite iterate_snoc. unfold bind.
  destruct (iterate' n loc self) as [[[[best0 u0]|e] s1] l1];
    [|discriminate].
  rewrite body_run. cbn.
  destruct (LQR _ _ _ _ _ _ _) as [e | [[x u'] cost]]; [discriminate|].
  destruct ((ndim x =? ndim u') && (ndim u' =? 3))%nat; [|discriminate].
  intros H. injection H as <- <- _ _. eauto.
Qed.

(** The whole call, run after its loop. *)
Lemma loop_run current_u self :
  loop' current_u self =
  iterate' (range_len (step self)) (None, current_u) self.
Proof.
  unfold loop, bind, getattr.
  destruct (iterate' _ _ self) as [[r s] l]. reflexivity.
Qed.

Lemma forward_run current_u self best u self' l :
  loop' current_u self = (Ok (best, u), self', l) ->
  forward' current_u self =
  if (1 <? step self)%Z
  then match best with
       | Some b =>
           let r := solver self (Some (best_u b)) in
           (propagate r, self, l ++ [mkSolve (Some (best_u b)) r])
       | None => (Raise TypeError, self, l)
       end
  else let r := solver self current_u in
       (propagate r, self, l ++ [mkSolve current_u r]).
Proof.
  intros Hl. pose proof (iterate_self (range_len (step self))
                           (None, current_u) self) as Hs.
  rewrite <- loop_run, Hl in Hs. cbn in Hs. subst self'.
  unfold forward, bind at 1. rewrite Hl.
  unfold terminal_input, terminal, subscript_u, bind, getattr, call, ret,
    raise.
  destruct (1 <? step self)%Z; [destruct best as [b|]|]; cbn;
    rewrite ?app_nil_r; reflexivity.
Qed.

(** When the loop raises, so does the call, with no further solve. *)
Lemma forward_raise current_u self e self' l :
  loop' current_u self = (Raise e, self', l) ->
  forward' current_u self = (Raise e, self', l).
Proof. intros Hl. unfold forward, bind. rewrite Hl. reflexivity. Qed.

(** Without iterations the call is its terminal solve alone. *)
Lemma forward_no_iteration current_u self :
  (step self <= 0)%Z ->
  loop' current_u self = (Ok (None, current_u), self, []) /\
  forward' current_u self =
    (propagate (solver self current_u), self,
     [mkSolve current_u (solver self current_u)]).
Proof.
  intros Hstep.
  assert (Hl : loop' current_u self = (Ok (None, current_u), self, [])).
  { rewrite loop_run. unfold range_len.
    replace (Z.to_nat (step self)) with O by lia. reflexivity. }
  split; [exact Hl|].
  rewrite (forward_run _ _ Hl).
  destruct (Z.ltb_spec 1 (step self)) as [H|H]; [lia|reflexivity].
Qed.

(** C1. In an iteration after the first (iteration [k+1] with
    [1 <= k < step]) that solves to [(x, u', cost)], [best] becomes
    [{u', cost}] exactly when [cost <= best.cost + eps], and stays as it
    was otherwise. *)
Theorem best_overwritten_within_eps :
  forall current_u self k best u self' l x u' cost,
    (2 <= step self)%Z ->
    (1 <= k)%nat -> (k < range_len (step self))%nat ->
    iterate cost_le cost_add LQR Q p x_init dt k (None, current_u) self
      = (Ok (best, u), self', l) ->
    solver self (option_map (@detach Data Graph) u) = inr (x, u', cost) ->
    ((ndim x =? ndim u') && (ndim u' =? 3))%nat = true ->
    exists b,
      best = Some b /\
      iterate cost_le cost_add LQR Q p x_init dt (S k) (None, current_u) self
        = (Ok (Some (if cost_le cost (cost_add (best_cost b) (eps self))
                     then mkBest u' cost else b),
               Some u'),
           self,
           l ++ [mkSolve (option_map (@detach Data Graph) u)
                         (inr (x, u', cost))]) /\
      loop cost_le cost_add LQR Q p x_init dt current_u self
        = bind (iterate cost_le cost_add LQR Q p x_init dt (S k)
                  (None, current_u))
               (iterate cost_le cost_add LQR Q p x_init dt
                  (range_len (step self) - S k))
               self.
Proof.
  intros current_u self k best u self' l x u' cost _ Hk Hlt Hit Hsolve
    Hassert.
  destruct k as [|k]; [lia|].
  destruct (iterate_best_set _ _ _ Hit) as (b & t & -> & ->).
  exists b. split; [reflexivity|]. split.
  - rewrite (iterate_next _ _ _ Hit). cbn zeta.
    rewrite Hsolve, Hassert. reflexivity.
  - rewrite loop_run, <- iterate_add. f_equal. lia.
Qed.

(** C2. With [step > 1], once the loop is over the call performs one more
    solve whose nominal input is [best.u], and returns what that solve
    returns. *)
Theorem final_solve_from_best_returned :
  forall current_u self best u self' l,
    (1 < step self)%Z ->
    loop cost_le cost_add LQR Q p x_init dt current_u self
      = (Ok (best, u), self', l) ->
    exists b,
      best = Some b /\
      forward cost_le cost_add LQR Q p x_init dt current_u self
        = (propagate (solver self (Some (best_u b))), self,
           l ++ [mkSolve (Some (best_u b))
                         (solver self (Some (best_u b)))]).
Proof.
  intros current_u self best u self' l Hstep Hl.
  assert (Hn : exists n, range_len (step self) = S n).
  { exists (Nat.pred (range_len (step self))). unfold range_len. lia. }
  destruct Hn as [n Hn].
  pose proof Hl as Hit. rewrite loop_run, Hn in Hit.
  destruct (iterate_best_set _ _ _ Hit) as (b & t & -> & ->).
  exists b. split; [reflexivity|].
  rewrite (forward_run _ _ Hl).
  destruct (Z.ltb_spec 1 (step self)); [reflexivity|lia].
Qed.

(** C3. With [step == 0] the call is one terminal solve from the nominal
    input of the caller: the loop leaves [best] unset, no lookup in it
    fails, and the result of the solve is the result of the call. *)
Theorem step_zero_single_terminal_solve :
  forall current_u self,
    step self = 0%Z ->
    loop cost_le cost_add LQR Q p x_init dt current_u self
      = (Ok (None, current_u), self, []) /\
    forward cost_le cost_add LQR Q p x_init dt current_u self
      = (propagate (solver self current_u), self,
         [mkSolve current_u (solver self current_u)]) /\
    fst (fst (forward cost_le cost_add LQR Q p x_init dt current_u self))
      <> Raise TypeError.
Proof.
  intros current_u self Hstep.
  destruct (forward_no_iteration current_u self) as [Hl Hf]; [lia|].
  repeat split; [exact Hl|exact Hf|].
  rewrite Hf. cbn. destruct (LQR _ _ _ _ _ _ _); discriminate.
Qed.

(** C10. A negative [step] behaves as [step == 0]: the body never runs,
    [best] is never created, and the call is a single terminal solve from
    the nominal input of the caller, with the outcome and the solves of
    the same driver configured with [step = 0]. *)
Theorem negative_step_as_zero :
  forall current_u self,
    (step self < 0)%Z ->
    let self0 := mkMPC (system self) (T self) 0 (eps self) in
    loop cost_le cost_add LQR Q p x_init dt current_u self
      = (Ok (None, current_u), self, []) /\
    forward cost_le cost_add LQR Q p x_init dt current_u self
      = (propagate (solver self current_u), self,
         [mkSolve current_u (solver self current_u)]) /\
    fst (fst (forward cost_le cost_add LQR Q p x_init dt current_u self))
      = fst (fst (forward cost_le cost_add LQR Q p x_init dt current_u
                    self0)) /\
    snd (forward cost_le cost_add LQR Q p x_init dt current_u self)
      = snd (forward cost_le cost_add LQR Q p x_init dt current_u self0).
Proof.
  intros current_u self Hstep self0.
  destruct (forward_no_iteration current_u self) as [Hl Hf]; [lia|].
  destruct (forward_no_iteration current_u self0) as [_ Hf0];
    [cbn; lia|].
  rewrite Hf, Hf0. split; [exact Hl|]. repeat split.
Qed.

(** C4, amended. With [step >= 1] and the loop completed, the final solve
    starts from [best.u] when [step >= 2] and from the nominal input of
    the caller when [step = 1]. *)
Theorem final_nominal_input :
  forall current_u self best u self' l,
    (1 <= step self)%Z ->
    loop cost_le cost_add LQR Q p x_init dt current_u self
      = (Ok (best, u), self', l) ->
    exists b v,
      best = Some b /\
      snd (forward cost_le cost_add LQR Q p x_init dt current_u self)
        = l ++ [mkSolve v (solver self v)] /\
      ((2 <= step self)%Z -> v = Some (best_u b)) /\
      (step self = 1%Z -> v = current_u).
Proof.
  intros current_u self best u self' l Hstep Hl.
  assert (Hn : exists n, range_len (step self) = S n).
  { exists (Nat.pred (range_len (step self))). unfold range_len. lia. }
  destruct Hn as [n Hn].
  pose proof Hl as Hit. rewrite loop_run, Hn in Hit.
  destruct (iterate_best_set _ _ _ Hit) as (b & t & -> & ->).
  rewrite (forward_run _ _ Hl).
  destruct (Z.ltb_spec 1 (step self)) as [H|H].
  - exists b, (Some (best_u b)). cbn. repeat split. lia.
  - exists b, current_u. cbn. repeat split. lia.
Qed.


(** Every nominal input the loop passes to a solve is detached. *)
Lemma detached_detach (u : option (Tensor Data Graph)) :
  detached (option_map (@detach Data Graph) u).
Proof.
  intros t Ht. destruct u as [t0|]; [|discriminate].
  injection Ht as <-. split; reflexivity.
Qed.

Lemma body_detached loc self :
  Forall (fun s => detached (nominal s)) (snd (body' loc self)).
Proof.
  destruct loc as [best u]. rewrite body_run. cbn zeta.
  destruct (LQR _ _ _ _ _ _ _) as [e | [[x u'] cost]];
    [|destruct ((ndim x =? ndim u') && (ndim u' =? 3))%nat];
    cbn; (constructor; [apply detached_detach|constructor]).
Qed.

Lemma iterate_detached n : forall loc self,
  Forall (fun s => detached (nominal s)) (snd (iterate' n loc self)).
Proof.
  induction n as [|n IH]; intros loc self; [constructor|].
  rewrite iterate_S. unfold bind.
  pose proof (body_detached loc self) as Hb.
  destruct (body' loc self) as [[[loc'|e] s1] l1]; [|exact Hb].
  specialize (IH loc' s1).
  destruct (iterate' n loc' s1) as [[r s2] l2].
  apply Forall_app. split; assumption.
Qed.

(** [best.u] is the input trajectory some solve of the loop returned, as
    it was returned. *)
Lemma best_from_solve n : forall current_u self best u self' l b,
  iterate' n (None, current_u) self = (Ok (best, u), self', l) ->
  best = Some b ->
  exists s x, In s l /\ result s = inr (x, best_u b, best_cost b).
Proof.
  induction n as [|n IH]; intros current_u self best u self' l b Hit Hb.
  - cbn in Hit. injection Hit as <- _ _ _. discriminate.
  - destruct (iterate' n (None, current_u) self)
      as [[[[best0 u0]|e] s1] l1] eqn:Hn.
    + rewrite (iterate_next _ _ _ Hn) in Hit. cbn zeta in Hit.
      destruct (LQR _ _ _ _ _ _ _) as [e | [[x u2] cost]] eqn:Hs;
        [discriminate|].
      destruct ((ndim x =? ndim u2) && (ndim u2 =? 3))%nat; [|discriminate].
      injection Hit as <- _ _ <-. injection Hb as <-.
      assert (Hnew : exists s x0, In s (l1 ++ [mkSolve
                 (option_map (@detach Data Graph) u0) (inr (x, u2, cost))])
               /\ result s = inr (x0, u2, cost)).
      { eexists _, x. split; [apply in_or_app; right; left; reflexivity|].
        reflexivity. }
      destruct best0 as [b0|]; cbn; [|exact Hnew].
      destruct (cost_le _ _); cbn; [exact Hnew|].
      destruct (IH _ _ _ _ _ _ b0 Hn eq_refl) as (s & x0 & Hin & Hr).
      exists s, x0. split; [apply in_or_app; left; exact Hin|exact Hr].
    + rewrite iterate_snoc in Hit. unfold bind in Hit. rewrite Hn in Hit.
      discriminate.
Qed.

(** C7, amended. Every solve of the loop receives a nominal input without
    differentiation history.  The terminal solve receives its nominal
    input as it stands: with [step <= 1] the nominal input of the caller,
    and with [step >= 2] the tensor in [best], which is the very tensor a
    solve of the loop returned, with the history that solve gave it. *)
Theorem loop_inputs_detached_terminal_input_kept :
  forall current_u self,
    Forall (fun s => detached (nominal s))
           (snd (loop cost_le cost_add LQR Q p x_init dt current_u self)) /\
    (forall best u self' l,
       loop cost_le cost_add LQR Q p x_init dt current_u self
         = (Ok (best, u), self', l) ->
       exists v,
         snd (forward cost_le cost_add LQR Q p x_init dt current_u self)
           = l ++ [mkSolve v (solver self v)] /\
         ((step self <= 1)%Z -> v = current_u) /\
         ((2 <= step self)%Z ->
          exists b s x,
            best = Some b /\ v = Some (best_u b) /\
            In s l /\ result s = inr (x, best_u b, best_cost b))).
Proof.
  intros current_u self. split.
  - rewrite loop_run. apply iterate_detached.
  - intros best u self' l Hl. rewrite (forward_run _ _ Hl).
    destruct (Z.ltb_spec 1 (step self)) as [Hstep|Hstep].
    + assert (Hn : exists n, range_len (step self) = S n).
      { exists (Nat.pred (range_len (step self))). unfold range_len. lia. }
      destruct Hn as [n Hn].
      pose proof Hl as Hit. rewrite loop_run, Hn in Hit.
      destruct (iterate_best_set _ _ _ Hit) as (b & t & -> & ->).
      destruct (best_from_solve _ _ _ Hit eq_refl) as (s & x & Hin & Hr).
      exists (Some (best_u b)). split; [reflexivity|].
      split; [lia|]. intros _. exists b, s, x. auto.
    + exists current_u. split; [reflexivity|].
      split; [reflexivity|lia].
Qed.

End DriverProperties.

(** ** The cost in [best] against the single-iteration call *)

Section Baseline.

Variables Data Graph Cost : Type.
Variable cost_le : Cost -> Cost -> bool.
Variable cost_add : Cost -> Cost -> Cost.
Variables System Quad Lin Init Dt Failure : Type.
Variable LQR :
  System -> Quad -> Lin -> Z ->
  Init -> Dt -> option (Tensor Data Graph) ->
  Failure + Candidate Data Graph Cost.

Variables (Q : Quad) (p : Lin) (x_init : Init) (dt : Dt).

Local Abbreviation iterate' := (iterate cost_le cost_add LQR Q p x_init dt).
Local Abbreviation loop' := (loop cost_le cost_add LQR Q p x_init dt).
Local Abbreviation forward' := (forward cost_le cost_add LQR Q p x_init dt).
Local Abbreviation solver self := (LQR (system self) Q p (T self) x_init dt).


(** The first iteration. *)
Lemma iterate_1 current_u self best u self' l :
  iterate' 1 (None, current_u) self = (Ok (best, u), self', l) ->
  exists x u' cost,
    solver self (option_map (@detach Data Graph) current_u)
      = inr (x, u', cost) /\
    best = Some (mkBest u' cost) /\ u = Some u' /\
    l = [mkSolve (option_map (@detach Data Graph) current_u)
                 (inr (x, u', cost))].
Proof.
  intros Hit. erewrite iterate_next in Hit by reflexivity.
  cbn zeta in Hit.
  destruct (solver self (option_map (@detach Data Graph) current_u))
    as [e | [[x u'] cost]]; [discriminate|].
  destruct ((ndim x =? ndim u') && (ndim u' =? 3))%nat; [|discriminate].
  injection Hit as <- <- _ <-. exists x, u', cost. repeat split.
Qed.

(** The iteration that follows [k + 1] completed ones. *)
Lemma iterate_SS k current_u self best u self' l :
  iterate' (S (S k)) (None, current_u) self = (Ok (best, u), self', l) ->
  exists b0 u0 l0 x u' cost,
    iterate' (S k) (None, current_u) self = (Ok (Some b0, u0), self, l0) /\
    solver self (option_map (@detach Data Graph) u0) = inr (x, u', cost) /\
    best = Some (select cost_le cost_add (eps self) (Some b0) u' cost) /\
    u = Some u' /\
    l = l0 ++ [mkSolve (option_map (@detach Data Graph) u0)
                       (inr (x, u', cost))].
Proof.
  intros Hit.
  destruct (iterate' (S k) (None, current_u) self)
    as [[[[best0 u0]|e] s1] l0] eqn:Hk.
  - pose proof (iterate_self cost_le cost_add LQR Q p x_init dt (S k)
                  (None, current_u) self) as Hs.
    rewrite Hk in Hs. cbn in Hs. subst s1.
    pose proof Hk as Hset. apply iterate_best_set in Hset.
    destruct Hset as (b0 & t & -> & _).
    erewrite iterate_next in Hit by exact Hk. cbn zeta in Hit.
    destruct (solver self (option_map (@detach Data Graph) u0))
      as [e | [[x u'] cost]] eqn:Hs; [discriminate|].
    destruct ((ndim x =? ndim u') && (ndim u' =? 3))%nat; [|discriminate].
    injection Hit as <- <- _ <-.
    exists b0, u0, l0, x, u', cost. repeat split. exact Hs.
  - rewrite iterate_snoc in Hit. unfold bind in Hit. rewrite Hk in Hit.
    discriminate.
Qed.



End Baseline.

(** ** The driver on scripted solvers *)

(** C4 fails for [step = 1]: the loop records iterate 1 in [best], and the
    final solve starts from the nominal input of the caller, here none. *)
Lemma final_solve_not_from_best_for_one_step :
  (1 <= step (scripted_mpc 1 eps_default))%Z /\
  ~ final_solve_from_best Qle_bool Qplus (scripted [5; 3]%Q) tt tt tt tt None
      (scripted_mpc 1 eps_default).
Proof.
  split; [cbn; lia|]. intros H.
  edestruct H as (b & r & Hb & Hf); [reflexivity|].
  injection Hb as <-. vm_compute in Hf. discriminate Hf.
Qed.



(** C7 fails for [step = 2]: the second iterate passes the test and is
    recorded in [best] with the history its solve gave it, and the final
    solve starts from it as it stands, so the result's graph reaches back
    into the second solve of the loop. *)
Lemma loop_solve_retained_in_graph :
  (2 <= step (scripted_mpc 2 eps_default))%Z /\
  ~ only_final_solve_retained (snd (scripted_forward [5; 3]%Q 2 eps_default)).
Proof.
  split; [cbn; lia|]. intros H.
  assert (Hg : grad_fn (scripted_u 5 2) = None).
  { apply (H [mkSolve None (inr (scripted_x 5 1, scripted_u 5 1, 5%Q));
              mkSolve (Some (detach (scripted_u 5 1)))
                      (inr (scripted_x 5 2, scripted_u 5 2, 3%Q))]
             (mkSolve (Some (scripted_u 5 2))
                      (inr (scripted_x 5 3, scripted_u 5 3, 0%Q)))
             (mkSolve (Some (detach (scripted_u 5 1)))
                      (inr (scripted_x 5 2, scripted_u 5 2, 3%Q)))
             (scripted_x 5 2) (scripted_u 5 2) 3%Q).
    - reflexivity.
    - right. left. reflexivity.
    - reflexivity.
    - reflexivity. }
  discriminate Hg.
Qed.

(** ** Shapes of the trajectories of the solver of the spec *)

Section LQRSpecProperties.

Variables Vec Mat : Type.
Variable dim : Vec -> nat.
Variable zeros : Vec.
Variable Cost : Type.
Variable cost_zero : Cost.
Variable cost_le : Cost -> Cost -> bool.
Variable cost_add : Cost -> Cost -> Cost.
Variables Graph Dt : Type.
Variable node : Graph.
Variables Gain Value : Type.
Variable value_T : Value.
Variable riccati :
  Mat * Mat -> Vec -> Vec -> Mat -> Vec -> Value -> Gain * Value.
Variable control : Gain -> Vec -> Vec -> Vec -> Vec.
Variable stage_cost : Mat -> Vec -> Vec -> Vec -> Cost.

Local Abbreviation LQR' :=
  (LQR_spec dim zeros cost_zero cost_add (Dt:=Dt) node value_T riccati
            control stage_cost).
Local Abbreviation solve_one' :=
  (solve_one cost_zero cost_add value_T riccati control stage_cost).

Lemma rollout_length (sys : Dynamics Vec Mat) us : forall t x,
  length (rollout sys t x us) = S (length us).
Proof.
  induction us as [|u us IH]; intros t x; cbn; [reflexivity|].
  rewrite IH. reflexivity.
Qed.

Lemma linearize_length (sys : Dynamics Vec Mat) xs : forall t us,
  length (linearize sys t xs us) = Nat.min (length xs) (length us).
Proof.
  induction xs as [|x xs IH]; intros t [|u us]; cbn; try reflexivity.
  rewrite IH. reflexivity.
Qed.

Lemma backward_length (steps : list (Linearized Vec Mat)) :
  length (fst (backward value_T riccati steps)) = length steps.
Proof.
  induction steps as [|[[AB [x u]] [Qt pt]] steps IH]; cbn; [reflexivity|].
  destruct (backward value_T riccati steps) as [gains V].
  destruct (riccati AB x u Qt pt V) as [g V']. cbn in *.
  rewrite IH. reflexivity.
Qed.

Lemma forward_pass_length (sys : Dynamics Vec Mat) stages : forall t x,
  length (fst (fst (forward_pass cost_zero cost_add control stage_cost
                      sys t x stages))) = S (length stages) /\
  length (snd (fst (forward_pass cost_zero cost_add control stage_cost
                      sys t x stages))) = length stages.
Proof.
  induction stages as [|[[g [u_nom x_nom]] [Qt pt]] stages IH];
    intros t x; cbn; [split; reflexivity|].
  specialize (IH (S t)
    (state_transition sys x (control g u_nom x x_nom) t)).
  destruct (forward_pass cost_zero cost_add control stage_cost sys _ _
              stages) as [[xs us] c].
  cbn in *. destruct IH as [-> ->]. split; reflexivity.
Qed.

(** One element of the batch: [n] nominal inputs and [n] cost weights give
    [n + 1] states and [n] inputs. *)
Lemma solve_one_length (sys : Dynamics Vec Mat) n x0 u_nom Qs ps :
  length u_nom = n -> length Qs = n -> length ps = n ->
  length (fst (fst (solve_one' sys x0 u_nom Qs ps))) = S n /\
  length (snd (fst (solve_one' sys x0 u_nom Qs ps))) = n.
Proof.
  intros Hu HQ Hp. unfold solve_one.
  pose proof (forward_pass_length sys
    (combine
       (combine
          (fst (backward value_T riccati
                  (combine
                     (combine
                        (linearize sys 0 (rollout sys 0 x0 u_nom) u_nom)
                        (combine (rollout sys 0 x0 u_nom) u_nom))
                     (combine Qs ps))))
          (combine u_nom (rollout sys 0 x0 u_nom)))
       (combine Qs ps)) 0 x0) as [Hx Hus].
  rewrite Hx, Hus. unfold Stage.
  rewrite !length_combine, backward_length. unfold Linearized.
  rewrite !length_combine, linearize_length, rollout_length, Hu, HQ, Hp.
  split; lia.
Qed.

Lemma time_len_Forall n (b : Traj Vec) :
  time_len n b = true <-> Forall (fun tr => length tr = n) b.
Proof.
  unfold time_len. rewrite forallb_forall, Forall_forall.
  split; intros H tr Hin; specialize (H tr Hin);
    [apply Nat.eqb_eq|apply Nat.eqb_eq]; exact H.
Qed.

(** Only the nominal input changes between the solves of a call. *)
Lemma shapes_ok_nominal n B (Q : list (list Mat)) (p u0 u1 : Traj Vec) :
  shapes_ok n B Q p u0 = true ->
  length u1 = B -> Forall (fun tr => length tr = n) u1 ->
  shapes_ok n B Q p u1 = true.
Proof.
  unfold shapes_ok. rewrite !andb_true_iff.
  intros [[[[[HQ Hp] _] HQt] Hpt] _] Hlen Htime.
  repeat split; try assumption.
  - apply Nat.eqb_eq. exact Hlen.
  - apply time_len_Forall. exact Htime.
Qed.

Section Call.

Variables (Q : list (list Mat)) (p : Traj Vec) (x_init : list Vec)
  (dt : Dt).
Variable self : MPC Cost (Dynamics Vec Mat).

Local Abbreviation n := (Z.to_nat (T self)).
Local Abbreviation B := (length x_init).

(** The shapes the contract of the solver asks for, for the nominal
    input [u]. *)
Local Abbreviation valid u :=
  (shapes_ok n B Q p (nominal_or_zeros (Graph:=Graph) zeros n B u) = true).

Local Abbreviation shaped s :=
  (exists x u cost,
     result s = inr (x, u, cost) /\
     well_shaped B (S n) x /\ well_shaped B n u).

(** On valid shapes a solve returns [n + 1] states and [n] inputs for
    each element of the batch. *)
Lemma LQR_spec_shaped u :
  valid u ->
  exists x u' cost,
    LQR' (system self) Q p (T self) x_init dt u = inr (x, u', cost) /\
    well_shaped B (S n) x /\ well_shaped B n u'.
Proof.
  intros Hok. unfold LQR_spec. cbv zeta. rewrite Hok.
  eexists _, _, _. split; [reflexivity|].
  unfold shapes_ok in Hok. rewrite !andb_true_iff in Hok.
  destruct Hok as [[[[[HQ Hp] Hu] HQt] Hpt] Hut].
  apply Nat.eqb_eq in HQ, Hp, Hu.
  rewrite forallb_forall in HQt. unfold time_len in Hpt, Hut.
  rewrite forallb_forall in Hpt, Hut.
  set (u_nom := nominal_or_zeros zeros n B u) in *.
  assert (Hlen : length (combine (combine x_init u_nom) (combine Q p))
                 = B).
  { rewrite !length_combine, HQ, Hp, Hu. lia. }
  assert (Hall : forall s,
            In s (map (fun '(x0, un, (Qs, ps)) => solve_one' (system self)
                         x0 un Qs ps)
                    (combine (combine x_init u_nom) (combine Q p))) ->
            length (fst (fst s)) = S n /\ length (snd (fst s)) = n).
  { intros s Hin. apply in_map_iff in Hin.
    destruct Hin as ([[x0 un] [Qs ps]] & <- & Hin).
    pose proof (in_combine_l _ _ _ _ Hin) as Hl.
    pose proof (in_combine_r _ _ _ _ Hin) as Hr.
    apply in_combine_r in Hl.
    pose proof (in_combine_l _ _ _ _ Hr) as HrQ.
    apply in_combine_r in Hr.
    apply solve_one_length; apply Nat.eqb_eq; auto. }
  split; (split; [reflexivity|]); cbn; rewrite !length_map;
    (split; [exact Hlen|]);
    apply Forall_forall; intros tr Htr; apply in_map_iff in Htr;
    destruct Htr as (s & <- & Hs); apply (Hall s Hs).
Qed.

Lemma valid_detach u : valid u -> valid (option_map (@detach _ _) u).
Proof. destruct u as [t|]; intros H; exact H. Qed.

Lemma well_shaped_valid u0 u :
  valid u0 -> well_shaped B n u -> valid (Some u).
Proof.
  intros H0 (_ & Hlen & Htime). cbn.
  eapply shapes_ok_nominal; eassumption.
Qed.

(** What the loop carries is valid for the next solve. *)
Local Abbreviation invariant loc :=
  (valid (snd loc) /\
   forall b, fst loc = Some b -> valid (Some (best_u b))).

Lemma iterate_shaped k : forall loc,
  invariant loc ->
  exists best u l,
    iterate cost_le cost_add LQR' Q p x_init dt k loc self
      = (Ok (best, u), self, l) /\
    invariant (best, u) /\ Forall (fun s => shaped s) l.
Proof.
  induction k as [|k IH]; intros [best u] Hinv.
  - exists best, u, []. repeat split; try apply Hinv. constructor.
  - rewrite iterate_S. unfold bind. rewrite body_run. cbn zeta.
    destruct Hinv as [Hu Hbest]. cbn in Hu, Hbest.
    destruct (LQR_spec_shaped _ (valid_detach u Hu))
      as (x & u' & cost & Hsolve & Hx & Hu').
    rewrite Hsolve.
    destruct Hx as (Hxd & Hxl & Hxt). destruct Hu' as (Hud & Hul & Hut).
    rewrite Hxd, Hud. cbn.
    assert (Hnew : valid (Some u')).
    { apply well_shaped_valid with (u0 := option_map (@detach _ _) u).
      - apply valid_detach, Hu.
      - repeat split; assumption. }
    destruct (IH (Some (select cost_le cost_add (eps self) best u' cost),
                  Some u')) as (best' & u2 & l & Hit & Hinv' & Hall).
    { split; [exact Hnew|]. cbn. intros b Hb. injection Hb as <-.
      destruct best as [b0|]; cbn; [|exact Hnew].
      destruct (cost_le _ _); cbn; [exact Hnew|]. apply Hbest.
      reflexivity. }
    rewrite Hit. eexists best', u2, _.
    split; [reflexivity|]. split; [exact Hinv'|].
    cbn. constructor; [|exact Hall].
    exists x, u', cost. repeat split; assumption.
Qed.

End Call.

(** C9. On valid shapes every solve of a call returns a state trajectory
    of [T + 1] steps and an input trajectory of [T] steps for each element
    of the batch, the batch as large as that of [x_init], and both are
    (batch, time, vector) tensors: the assertion of the loop holds in
    every iteration and the call returns. *)
Theorem solver_trajectories_shaped :
  forall (Q : list (list Mat)) (p : Traj Vec) (x_init : list Vec) (dt : Dt)
         (current_u : option (Tensor (Traj Vec) Graph))
         (self : MPC Cost (Dynamics Vec Mat)),
    let n := Z.to_nat (T self) in
    let B := length x_init in
    shapes_ok n B Q p (nominal_or_zeros zeros n B current_u) = true ->
    (exists c,
       fst (fst (forward cost_le cost_add LQR' Q p x_init dt current_u
                   self)) = Ok c) /\
    Forall (fun s =>
              exists x u cost,
                result s = inr (x, u, cost) /\
                well_shaped B (S n) x /\ well_shaped B n u)
           (snd (forward cost_le cost_add LQR' Q p x_init dt current_u
                   self)).
Proof.
  intros Q p x_init dt current_u self n B Hok.
  destruct (@iterate_shaped Q p x_init dt self (range_len (step self))
              (None, current_u)) as (best & u & l & Hit & Hinv & Hall).
  { split; [exact Hok|]. intros b Hb. discriminate Hb. }
  rewrite <- loop_run in Hit. erewrite forward_run by exact Hit.
  assert (Hlast : forall v,
            shapes_ok n B Q p (nominal_or_zeros zeros n B v) = true ->
            (exists c, propagate (LQR' (system self) Q p (T self) x_init
                                       dt v) = Ok c) /\
            Forall (fun s =>
                      exists x u cost,
                        result s = inr (x, u, cost) /\
                        well_shaped B (S n) x /\ well_shaped B n u)
                   (l ++ [mkSolve v (LQR' (system self) Q p (T self)
                                          x_init dt v)])).
  { intros v Hv.
    destruct (@LQR_spec_shaped Q p x_init dt self v Hv)
      as (x & u' & cost & Hsolve & Hx & Hu').
    rewrite Hsolve. split; [eexists; reflexivity|].
    apply Forall_app. split; [exact Hall|].
    constructor; [|constructor].
    exists x, u', cost. repeat split; try apply Hx; apply Hu'. }
  destruct (1 <? step self)%Z eqn:Hstep.
  - destruct best as [b|].
    + apply Hlast. apply Hinv. reflexivity.
    + exfalso. apply Z.ltb_lt in Hstep.
      rewrite loop_run in Hit.
      replace (range_len (step self))
        with (S (Nat.pred (range_len (step self)))) in Hit
        by (unfold range_len; lia).
      apply iterate_best_set in Hit. destruct Hit as (b & t & Hb & _).
      discriminate Hb.
  - apply Hlast. exact Hok.
Qed.

End LQRSpecProperties.

(** ** The driver on the solver of the spec

    On the cubic system the solver of the spec takes the first input from 1
    to 1/3, at cost 392/729, and from there to -25/9, at a cost above 208:
    the linearization at 1/3 is too flat and the full step overshoots. *)

(** With [step = 2] the second iterate is rejected, the final solve starts
    from the first and returns the second again. *)
Example cubic_returned_cost_worse :
  returned_cost (cubic_forward 1 eps_default) = Some (392 # 729)%Q /\
  returned_cost (cubic_forward 2 eps_default)
    = Some (110945408 # 531441)%Q /\
  ~ never_worse_than_single_step Qle_bool Qplus scalar_LQR cubic_Q cubic_p
      cubic_x_init (1 # 100)%Q (Some cubic_u) (cubic_mpc 2 eps_default).
Proof.
  split; [vm_compute; reflexivity|]. split; [vm_compute; reflexivity|].
  intros H.
  specialize (H (110945408 # 531441)%Q (392 # 729)%Q).
  assert (H1 : returned_cost (cubic_forward 2 eps_default)
               = Some (110945408 # 531441)%Q) by (vm_compute; reflexivity).
  assert (H2 : returned_cost (cubic_forward 1 eps_default)
               = Some (392 # 729)%Q) by (vm_compute; reflexivity).
  specialize (H H1 H2). vm_compute in H. discriminate H.
Qed.

(** With a tolerance of 1000 the second iterate replaces the first in
    [best] although it costs more. *)
Example cubic_best_cost_rises :
  best_cost_of (cubic_iterate 1 2 1000) = Some (392 # 729)%Q /\
  best_cost_of (cubic_iterate 2 2 1000) = Some (110945408 # 531441)%Q.
Proof. split; vm_compute; reflexivity. Qed.

(** ** The theorems at concrete calls *)

(** C1 on a solver whose second iterate is cheaper than the first: the second
    iteration overwrites [best]. *)
Lemma best_overwritten_within_eps_witness :
  best_cost_of (scripted_iterate [5; 3]%Q 2 2 eps_default) = Some 3%Q.
Proof.
  destruct (@best_overwritten_within_eps nat unit Q Qle_bool Qplus
              unit unit unit unit unit unit (scripted [5; 3]%Q) tt tt tt tt
              None (scripted_mpc 2 eps_default) 1%nat _ _ _ _ _ _ _
              ltac:(cbn; lia) (le_n 1) (le_n 2) eq_refl eq_refl eq_refl)
    as (b & Hb & Hit & _).
  injection Hb as <-. unfold scripted_iterate. rewrite Hit. reflexivity.
Defined.

(** C2 with [step = 2]: the call returns the third iterate, solved from the
    second, which is the best. *)
Lemma final_solve_from_best_returned_witness :
  returned_cost (scripted_forward [5; 3; 4]%Q 2 eps_default) = Some 4%Q.
Proof.
  destruct (@final_solve_from_best_returned nat unit Q Qle_bool Qplus
              unit unit unit unit unit unit (scripted [5; 3; 4]%Q)
              tt tt tt tt None (scripted_mpc 2 eps_default) _ _ _ _
              ltac:(cbn; lia) eq_refl)
    as (b & Hb & Hf).
  injection Hb as <-. unfold scripted_forward. rewrite Hf. reflexivity.
Defined.

(** C3 with [step = 0]: one solve, from no nominal input. *)
Lemma step_zero_single_terminal_solve_witness :
  snd (scripted_forward [5; 3]%Q 0 eps_default)
  = [mkSolve None (inr (scripted_x 5 1, scripted_u 5 1, 5%Q))].
Proof.
  destruct (@step_zero_single_terminal_solve nat unit Q Qle_bool Qplus
              unit unit unit unit unit unit (scripted [5; 3]%Q) tt tt tt tt
              None (scripted_mpc 0 eps_default) eq_refl)
    as (Hl & Hf & Hne).
  unfold scripted_forward. rewrite Hf. reflexivity.
Defined.

(** C10 with [step = -1]. *)
Lemma negative_step_as_zero_witness :
  snd (scripted_forward [5; 3]%Q (-1) eps_default)
  = snd (scripted_forward [5; 3]%Q 0 eps_default).
Proof.
  destruct (@negative_step_as_zero nat unit Q Qle_bool Qplus
              unit unit unit unit unit unit (scripted [5; 3]%Q) tt tt tt tt
              None (scripted_mpc (-1) eps_default) ltac:(cbn; lia))
    as (Hl & Hf & Hr & Hs).
  exact Hs.
Defined.

(** C4, amended, with [step = 1]: the final solve starts from the nominal
    input of the caller. *)
Lemma final_nominal_input_witness :
  exists l,
    snd (scripted_forward [5; 3]%Q 1 eps_default)
    = l ++ [mkSolve None (inr (scripted_x 5 1, scripted_u 5 1, 5%Q))].
Proof.
  destruct (@final_nominal_input nat unit Q Qle_bool Qplus
              unit unit unit unit unit unit (scripted [5; 3]%Q) tt tt tt tt
              None (scripted_mpc 1 eps_default) _ _ _ _
              ltac:(cbn; lia) eq_refl)
    as (b & v & Hb & Hf & H2 & H1).
  rewrite (H1 eq_refl) in Hf. eexists. exact Hf.
Defined.



(** C7, amended, with [step = 2]: the solves of the loop start from
    detached inputs, and the terminal solve from the tensor in [best]. *)
Lemma loop_inputs_detached_terminal_input_kept_witness :
  Forall (fun s => detached (nominal s))
         (snd (scripted_loop [5; 3]%Q 2 eps_default)) /\
  exists v,
    nominal (last (snd (scripted_forward [5; 3]%Q 2 eps_default))
                  (mkSolve None (inl tt))) = v /\
    exists b s x,
      fst (fst (scripted_loop [5; 3]%Q 2 eps_default))
        = Ok (Some b, Some (scripted_u 5 2)) /\
      v = Some (best_u b) /\
      In s (snd (scripted_loop [5; 3]%Q 2 eps_default)) /\
      result s = inr (x, best_u b, best_cost b).
Proof.
  destruct (@loop_inputs_detached_terminal_input_kept nat unit Q Qle_bool
              Qplus unit unit unit unit unit unit (scripted [5; 3]%Q)
              tt tt tt tt None (scripted_mpc 2 eps_default))
    as [Hall Hterm].
  split; [exact Hall|].
  destruct (Hterm _ _ _ _ eq_refl) as (v & Hf & _ & Hv).
  exists v. split; [unfold scripted_forward; rewrite Hf, last_last;
                    reflexivity|].
  destruct (Hv ltac:(cbn; lia)) as (b & s & x & Hb & Hvb & Hin & Hr).
  exists b, s, x. repeat split; try assumption.
  injection Hb as <-. reflexivity.
Defined.

(** The nominal input of that terminal solve is not detached. *)
Example terminal_input_keeps_history :
  option_map (@grad_fn nat unit)
    (nominal (last (snd (scripted_forward [5; 3]%Q 2 eps_default))
                   (mkSolve None (inl tt))))
  = Some (Some tt).
Proof. reflexivity. Qed.

(** C9 on the cubic system: one problem over two steps, with [step = 2]. *)
Lemma solver_trajectories_shaped_witness :
  Forall (fun s =>
            exists x u cost,
              result s = inr (x, u, cost) /\
              well_shaped 1 3 x /\ well_shaped 1 2 u)
         (snd (cubic_forward 2 eps_default)).
Proof.
  apply (@solver_trajectories_shaped (list Q) (list (list Q)) (@length Q)
           [0%Q] Q 0%Q Qle_bool Qplus unit Q tt (Q * Q)%type (Q * Q)%type
           (0, 0)%Q scalar_riccati scalar_control scalar_cost
           cubic_Q cubic_p cubic_x_init (1 # 100)%Q (Some cubic_u)
           (cubic_mpc 2 eps_default) eq_refl).
Defined.

(** ** What a call records: its solves, their order and its outcome *)

Section DriverTrace.

Variables Data Graph Cost : Type.
Variable cost_le : Cost -> Cost -> bool.
Variable cost_add : Cost -> Cost -> Cost.
Variables System Quad Lin Init Dt Failure : Type.
Variable LQR :
  System -> Quad -> Lin -> Z ->
  Init -> Dt -> option (Tensor Data Graph) ->
  Failure + Candidate Data Graph Cost.

Variables (Q : Quad) (p : Lin) (x_init : Init) (dt : Dt).

Local Abbreviation body' := (body cost_le cost_add LQR Q p x_init dt).
Local Abbreviation iterate' := (iterate cost_le cost_add LQR Q p x_init dt).
Local Abbreviation loop' := (loop cost_le cost_add LQR Q p x_init dt).
Local Abbreviation forward' := (forward cost_le cost_add LQR Q p x_init dt).
Local Abbreviation solver self := (LQR (system self) Q p (T self) x_init dt).
Local Abbreviation passed l :=
  (Forall (fun s : Solve Data Graph Cost Failure =>
             asserted (result s) = true) l).

(** How an exception of the loop shows in its last solve. *)
Local Abbreviation raised_by e s :=
  (match e with
   | SolverError e' => result s = inl e'
   | AssertionError =>
       (exists c, result s = inr c) /\ asserted (result s) = false
   | TypeError => False
   end).

Lemma iterate_trace n : forall loc self r self' l,
  iterate' n loc self = (r, self', l) ->
  match r with
  | Ok _ => length l = n /\ passed l
  | Raise e =>
      exists l0 s,
        l = l0 ++ [s] /\ (length l0 < n)%nat /\ passed l0 /\ raised_by e s
  end.
Proof.
  induction n as [|n IH]; intros [best u] self r self' l Hit.
  - cbn in Hit. injection Hit as <- _ <-. split; [reflexivity|constructor].
  - rewrite iterate_S in Hit. unfold bind in Hit. rewrite body_run in Hit.
    cbn zeta in Hit.
    destruct (solver self (option_map (@detach Data Graph) u))
      as [e | [[x u'] cost]] eqn:Hs.
    + injection Hit as <- _ <-.
      exists [], (mkSolve (option_map (@detach Data Graph) u) (inl e)).
      repeat split; [cbn; lia|constructor].
    + destruct ((ndim x =? ndim u') && (ndim u' =? 3))%nat eqn:Hc.
      * destruct (iterate' n _ self) as [[r2 s2] l2] eqn:Hn.
        injection Hit as <- _ <-. specialize (IH _ _ _ _ _ Hn).
        assert (Hhd : asserted
                  (result (mkSolve (option_map (@detach Data Graph) u)
                             (@inr Failure _ (x, u', cost)))) = true)
          by exact Hc.
        destruct r2 as [loc2|e].
        -- destruct IH as [Hlen Hall]. cbn. split; [lia|].
           constructor; assumption.
        -- destruct IH as (l0 & s & -> & Hlen & Hall & He).
           exists (mkSolve (option_map (@detach Data Graph) u)
                     (inr (x, u', cost)) :: l0), s.
           repeat split; [cbn; lia|constructor; assumption|exact He].
      * injection Hit as <- _ <-.
        exists [], (mkSolve (option_map (@detach Data Graph) u)
                      (inr (x, u', cost))).
        repeat split; [cbn; lia|constructor|eexists; reflexivity|exact Hc].
Qed.

(** The solves of a call: those of the loop, which passed the assertion,
    then the one that decides the outcome. *)
Lemma forward_trace current_u self :
  exists l0 s,
    snd (forward' current_u self) = l0 ++ [s] /\
    (length l0 <= range_len (step self))%nat /\
    passed l0 /\
    match fst (fst (forward' current_u self)) with
    | Ok c => length l0 = range_len (step self) /\ result s = inr c
    | Raise AssertionError =>
        (length l0 < range_len (step self))%nat /\
        (exists c, result s = inr c) /\ asserted (result s) = false
    | Raise (SolverError e) => result s = inl e
    | Raise TypeError => False
    end.
Proof.
  destruct (loop' current_u self) as [[[[best u]|e] s1] l1] eqn:Hl.
  - pose proof Hl as Hit. rewrite loop_run in Hit.
    pose proof (iterate_trace _ _ _ Hit) as [Hlen Hall].
    rewrite (forward_run _ _ _ _ _ _ _ _ _ Hl).
    assert (Hend : forall v,
              exists l0 s,
                l1 ++ [mkSolve v (solver self v)] = l0 ++ [s] /\
                (length l0 <= range_len (step self))%nat /\ passed l0 /\
                match propagate (solver self v) with
                | Ok c => length l0 = range_len (step self) /\
                          result s = inr c
                | Raise AssertionError =>
                    (length l0 < range_len (step self))%nat /\
                    (exists c, result s = inr c) /\
                    asserted (result s) = false
                | Raise (SolverError e) => result s = inl e
                | Raise TypeError => False
                end).
    { intros v. exists l1, (mkSolve v (solver self v)).
      repeat split; [lia|exact Hall|].
      cbn. destruct (solver self v) as [e|c]; cbn; [reflexivity|].
      split; [exact Hlen|reflexivity]. }
    destruct (1 <? step self)%Z eqn:Hstep; [|apply Hend].
    destruct best as [b|]; [apply Hend|].
    exfalso. apply Z.ltb_lt in Hstep.
    replace (range_len (step self))
      with (S (Nat.pred (range_len (step self)))) in Hit
      by (unfold range_len; lia).
    apply iterate_best_set in Hit. destruct Hit as (b & t & Hb & _).
    discriminate Hb.
  - rewrite (forward_raise _ _ _ _ _ _ _ _ _ Hl). cbn.
    rewrite loop_run in Hl.
    pose proof (iterate_trace _ _ _ Hl) as (l0 & s & -> & Hlen & Hall & He).
    exists l0, s. repeat split; [lia|exact Hall|].
    destruct e as [| |e]; [split; [exact Hlen|exact He]|exact He|exact He].
Qed.

(** X1. No call, whatever its [step] and its solver, raises the
    [TypeError] of a lookup in an unset [best]: [best['u']] is only read
    after an iteration has set it. *)
Theorem best_lookup_never_fails :
  forall current_u self,
    fst (fst (forward cost_le cost_add LQR Q p x_init dt current_u self))
      <> Raise TypeError.
Proof.
  intros current_u self E.
  destruct (forward_trace current_u self) as (l0 & s & _ & _ & _ & H).
  rewrite E in H. exact H.
Qed.

(** X2. A call performs at least one solve and at most [step + 1] (one
    when [step <= 0]); a call that returns has performed exactly that
    many. *)
Theorem solves_per_call :
  forall current_u self,
    (1 <= length (snd (forward cost_le cost_add LQR Q p x_init dt
                         current_u self))
     <= S (range_len (step self)))%nat /\
    (forall c,
       fst (fst (forward cost_le cost_add LQR Q p x_init dt current_u self))
         = Ok c ->
       length (snd (forward cost_le cost_add LQR Q p x_init dt current_u
                      self))
         = S (range_len (step self))).
Proof.
  intros current_u self.
  destruct (forward_trace current_u self) as (l0 & s & -> & Hlen & _ & H).
  rewrite length_app. cbn. split; [lia|].
  intros c E. rewrite E in H. lia.
Qed.

(** X3. A failure of the solver propagates unchanged and ends the call: a
    solve that failed is the last solve of the call, every solve before it
    succeeded, and the call raises that very failure; and a call raising a
    solver failure has it from its last solve. *)
Theorem solver_failure_propagates :
  forall current_u self,
    (forall s e,
       In s (snd (forward cost_le cost_add LQR Q p x_init dt current_u
                    self)) ->
       result s = inl e ->
       fst (fst (forward cost_le cost_add LQR Q p x_init dt current_u self))
         = Raise (SolverError e) /\
       exists l0,
         snd (forward cost_le cost_add LQR Q p x_init dt current_u self)
           = l0 ++ [s] /\
         Forall (fun s' => exists c, result s' = inr c) l0) /\
    (forall e,
       fst (fst (forward cost_le cost_add LQR Q p x_init dt current_u self))
         = Raise (SolverError e) ->
       exists l0 u,
         snd (forward cost_le cost_add LQR Q p x_init dt current_u self)
           = l0 ++ [mkSolve u (inl e)]).
Proof.
  intros current_u self.
  destruct (forward_trace current_u self) as (l0 & s0 & Hl & _ & Hall & H).
  assert (Hok : Forall (fun s' : Solve Data Graph Cost Failure =>
                          exists c, result s' = inr c) l0).
  { eapply Forall_impl; [|exact Hall]. intros s' Hs'. cbn in Hs'.
    destruct (result s') as [e'|c]; [discriminate|eauto]. }
  split.
  - intros s e Hin Hs. rewrite Hl in Hin. apply in_app_or in Hin.
    destruct Hin as [Hin | [<- | []]].
    + rewrite Forall_forall in Hok. destruct (Hok s Hin) as [c Hc].
      congruence.
    + rewrite Hl. split; [|exists l0; split; [reflexivity|exact Hok]].
      destruct (fst (fst (forward' current_u self))) as [c|[| |e']].
      * destruct H as [_ H]. congruence.
      * destruct H as (_ & [c Hc] & _). congruence.
      * destruct H.
      * congruence.
  - intros e E. rewrite E in H. exists l0, (nominal s0). rewrite Hl.
    destruct s0 as [u r]. cbn in *. subst r. reflexivity.
Qed.

(** X4. The assertion guards the solves of the loop and only them: a call
    raises [AssertionError] exactly when its last solve is one of the
    [step] solves of the loop and returned tensors that are not both
    3-dimensional.  What the terminal solve returns is not checked. *)
Theorem assertion_guards_loop_solves :
  forall current_u self,
    fst (fst (forward cost_le cost_add LQR Q p x_init dt current_u self))
      = Raise AssertionError <->
    exists l0 s,
      snd (forward cost_le cost_add LQR Q p x_init dt current_u self)
        = l0 ++ [s] /\
      (length l0 < range_len (step self))%nat /\
      (exists c, result s = inr c) /\
      asserted (result s) = false.
Proof.
  intros current_u self.
  destruct (forward_trace current_u self) as (l0 & s0 & Hl & _ & _ & H).
  split.
  - intros E. rewrite E in H. exists l0, s0. tauto.
  - intros (l1 & s1 & Hl1 & Hlen & [c Hc] & Hfalse).
    rewrite Hl in Hl1. apply app_inj_tail in Hl1. destruct Hl1 as [<- <-].
    destruct (fst (fst (forward' current_u self))) as [c'|[| |e']].
    + lia.
    + reflexivity.
    + destruct H.
    + congruence.
Qed.

Lemma iterate_chained n : forall best u self,
  chained u (snd (iterate' n (best, u) self)).
Proof.
  induction n as [|n IH]; intros best u self; [exact I|].
  rewrite iterate_S. unfold bind. rewrite body_run. cbn zeta.
  destruct (solver self (option_map (@detach Data Graph) u))
    as [e | [[x u'] cost]] eqn:Hs.
  - cbn. split; reflexivity.
  - destruct ((ndim x =? ndim u') && (ndim u' =? 3))%nat.
    + specialize (IH (Some (select cost_le cost_add (eps self) best u' cost))
                     (Some u') self).
      destruct (iterate' n _ self) as [[r2 s2] l2].
      cbn. split; [reflexivity|exact IH].
    + cbn. split; [reflexivity|exact I].
Qed.

(** X5. The solves of the loop warm-start one another: the first starts
    from the detached nominal input of the caller, each next one from the
    detached input trajectory the solve before it returned, and no solve
    follows a failed one. *)
Theorem loop_solves_chained :
  forall current_u self,
    chained current_u
      (snd (loop cost_le cost_add LQR Q p x_init dt current_u self)).
Proof.
  intros current_u self. rewrite loop_run. apply iterate_chained.
Qed.

(** X6. With [step = 1] the iteration of the loop has no part in the
    result: when it completes, the call returns what the terminal solve
    from the nominal input of the caller returns, as the same driver with
    [step = 0] does. *)
Theorem single_iteration_discarded :
  forall current_u self best u self' l,
    step self = 1%Z ->
    loop cost_le cost_add LQR Q p x_init dt current_u self
      = (Ok (best, u), self', l) ->
    fst (fst (forward cost_le cost_add LQR Q p x_init dt current_u self))
      = propagate (LQR (system self) Q p (T self) x_init dt current_u) /\
    fst (fst (forward cost_le cost_add LQR Q p x_init dt current_u self))
      = fst (fst (forward cost_le cost_add LQR Q p x_init dt current_u
                    (mkMPC (system self) (T self) 0 (eps self)))).
Proof.
  intros current_u self best u self' l Hstep Hl.
  destruct (@forward_no_iteration _ _ _ cost_le cost_add _ _ _ _ _ _ LQR
              Q p x_init dt current_u
              (mkMPC (system self) (T self) 0 (eps self))) as [_ ->];
    [cbn; lia|].
  rewrite (forward_run _ _ _ _ _ _ _ _ _ Hl), Hstep. cbn.
  split; reflexivity.
Qed.

End DriverTrace.

(** ** The record [best] as the least cost of the loop *)

Section LeastCost.

Variables Data Graph Cost : Type.
Variable cost_le : Cost -> Cost -> bool.
Variable cost_add : Cost -> Cost -> Cost.
Variables System Quad Lin Init Dt Failure : Type.
Variable LQR :
  System -> Quad -> Lin -> Z ->
  Init -> Dt -> option (Tensor Data Graph) ->
  Failure + Candidate Data Graph Cost.

Variables (Q : Quad) (p : Lin) (x_init : Init) (dt : Dt).

Local Abbreviation iterate' := (iterate cost_le cost_add LQR Q p x_init dt).

Lemma least_of_iterates (ordered : Cost -> Prop) k :
  forall current_u self best u self' l,
    total_on cost_le ordered ->
    (forall a b, ordered b ->
       cost_le a (cost_add b (eps self)) = cost_le a b) ->
    iterate' (S k) (None, current_u) self = (Ok (best, u), self', l) ->
    (forall s x v c, In s l -> result s = inr (x, v, c) -> ordered c) ->
    exists b,
      best = Some b /\
      (exists s x, In s l /\ result s = inr (x, best_u b, best_cost b)) /\
      (forall s x v c,
         In s l -> result s = inr (x, v, c) ->
         cost_le (best_cost b) c = true).
Proof.
  induction k as [|k IH];
    intros current_u self best u self' l Htot Heps Hit Hord.
  - apply iterate_1 in Hit.
    destruct Hit as (x1 & u1 & c1 & _ & -> & _ & ->).
    eexists. split; [reflexivity|]. cbn [best_u best_cost]. split.
    + eexists _, x1. split; [left; reflexivity|reflexivity].
    + intros s x v c [<- | []] Hr. cbn in Hr. injection Hr as _ _ <-.
      assert (Ho : ordered c1).
      { eapply Hord; [left; reflexivity|reflexivity]. }
      destruct (proj1 Htot c1 c1 Ho Ho) as [H | H]; exact H.
  - apply iterate_SS in Hit.
    destruct Hit as (b0 & u0 & l0 & x2 & u2 & c2 & Hk & _ & -> & _ & ->).
    destruct (IH _ _ _ _ _ _ Htot Heps Hk) as (b & Hb & Hatt & Hmin).
    { intros s x v c Hin Hr. eapply Hord; [|exact Hr].
      apply in_or_app. left. exact Hin. }
    injection Hb as <-.
    destruct Hatt as (s0 & x0 & Hin0 & Hr0).
    assert (Ho0 : ordered (best_cost b0)).
    { eapply Hord; [|exact Hr0]. apply in_or_app. left. exact Hin0. }
    assert (Ho2 : ordered c2).
    { eapply Hord;
        [apply in_or_app; right; left; reflexivity|reflexivity]. }
    eexists. split; [reflexivity|]. cbn [select].
    rewrite (Heps c2 (best_cost b0) Ho0).
    destruct (cost_le c2 (best_cost b0)) eqn:Hle; cbn [best_u best_cost].
    + split.
      * eexists _, x2.
        split; [apply in_or_app; right; left; reflexivity|reflexivity].
      * intros s x v c Hin Hr. apply in_app_or in Hin.
        destruct Hin as [Hin | [<- | []]].
        -- apply (proj2 Htot c2 (best_cost b0) c); [exact Hle|].
           exact (Hmin _ _ _ _ Hin Hr).
        -- cbn in Hr. injection Hr as _ _ <-.
           destruct (proj1 Htot c2 c2 Ho2 Ho2) as [H | H]; exact H.
    + split.
      * exists s0, x0. split; [|exact Hr0]. apply in_or_app. left.
        exact Hin0.
      * intros s x v c Hin Hr. apply in_app_or in Hin.
        destruct Hin as [Hin | [<- | []]].
        -- exact (Hmin _ _ _ _ Hin Hr).
        -- cbn in Hr. injection Hr as _ _ <-.
           destruct (proj1 Htot c2 (best_cost b0) Ho2 Ho0) as [H | H];
             [congruence|exact H].
Qed.

(** X7. With a tolerance that leaves the test [cost <= best.cost + eps]
    as the plain comparison (eps = 0) and costs of the loop's solves that
    the comparison orders (no NaN), when the loop ends [best] holds the
    input trajectory and the cost of one of the loop's solves, and that
    cost is at most the cost of every solve of the loop. *)
Theorem best_is_least_cost_of_loop :
  forall (ordered : Cost -> Prop) current_u self best u self' l b,
    total_on cost_le ordered ->
    (forall a c, ordered c ->
       cost_le a (cost_add c (eps self)) = cost_le a c) ->
    loop cost_le cost_add LQR Q p x_init dt current_u self
      = (Ok (best, u), self', l) ->
    (forall s x v c, In s l -> result s = inr (x, v, c) -> ordered c) ->
    best = Some b ->
    (exists s x, In s l /\ result s = inr (x, best_u b, best_cost b)) /\
    (forall s x v c,
       In s l -> result s = inr (x, v, c) ->
       cost_le (best_cost b) c = true).
Proof.
  intros ordered current_u self best u self' l b Htot Heps Hl Hord Hb.
  rewrite loop_run in Hl.
  destruct (range_len (step self)) as [|k].
  - cbn in Hl. injection Hl as <- _ _ _. discriminate Hb.
  - destruct (@least_of_iterates ordered k _ _ _ _ _ _ Htot Heps Hl Hord)
      as (b' & Hb' & Hatt & Hmin).
    rewrite Hb in Hb'. injection Hb' as <-. split; assumption.
Qed.

End LeastCost.

(** ** The record [best] against the costs of the loop, with rational
    costs *)

Section CostOrder.

Variables Data Graph System Quad Lin Init Dt Failure : Type.
Variable LQR :
  System -> Quad -> Lin -> Z ->
  Init -> Dt -> option (Tensor Data Graph) ->
  Failure + Candidate Data Graph QArith_base.Q.

Variables (Qw : Quad) (p : Lin) (x_init : Init) (dt : Dt).

Local Abbreviation iterate' := (iterate Qle_bool Qplus LQR Qw p x_init dt).
Local Abbreviation loop' := (loop Qle_bool Qplus LQR Qw p x_init dt).
Local Abbreviation forward' := (forward Qle_bool Qplus LQR Qw p x_init dt).
Local Abbreviation solver self :=
  (LQR (system self) Qw p (T self) x_init dt).

(** In exact arithmetic with [eps >= 0], a cost reached in [n]
    iterations lies within [n * eps] above the cost it started from. *)
Lemma replaced_within_band (tol : QArith_base.Q) n :
  forall c b : QArith_base.Q,
    (0 <= tol)%Q ->
    replaced_within Qle_bool Qplus tol n c b ->
    (b <= c + inject_Z (Z.of_nat n) * tol)%Q.
Proof.
  induction n as [|n IH]; intros c b Htol Hr.
  - cbn in Hr. subst b. cbn. rewrite Qmult_0_l, Qplus_0_r. apply Qle_refl.
  - cbn [replaced_within] in Hr. destruct Hr as (b' & Hr & Hb).
    specialize (IH _ _ Htol Hr).
    rewrite Nat2Z.inj_succ. unfold Z.succ.
    rewrite inject_Z_plus, Qmult_plus_distr_l, Qmult_1_l, Qplus_assoc.
    destruct Hb as [-> | Hle].
    + eapply Qle_trans; [exact IH|].
      rewrite <- Qplus_0_r at 1. apply Qplus_le_r. exact Htol.
    + apply Qle_bool_iff in Hle. eapply Qle_trans; [exact Hle|].
      apply Qplus_le_l. exact IH.
Qed.

Lemma costs_never_increase_prefix
    (l : list (Solve Data Graph QArith_base.Q Failure)) s :
  costs_never_increase (l ++ [s]) -> costs_never_increase l.
Proof.
  intros H l1 s1 s2 l2 x1 u1 c1 x2 u2 c2 Hl.
  apply (H l1 s1 s2 (l2 ++ [s])). rewrite Hl, <- app_assoc. reflexivity.
Qed.

Lemma latest_is_best k : forall current_u self best u self' l,
  (0 <= eps self)%Q ->
  iterate' (S k) (None, current_u) self = (Ok (best, u), self', l) ->
  costs_never_increase l ->
  exists b l0 v x,
    best = Some b /\ u = Some (best_u b) /\
    l = l0 ++ [mkSolve v (inr (x, best_u b, best_cost b))].
Proof.
  induction k as [|k IH]; intros current_u self best u self' l Heps Hit Hmon.
  - apply iterate_1 in Hit.
    destruct Hit as (x1 & u1 & c1 & _ & -> & -> & ->).
    exists (mkBest u1 c1), [], (option_map (@detach Data Graph) current_u),
      x1.
    repeat split.
  - apply iterate_SS in Hit.
    destruct Hit as (b0 & u0 & l0 & x2 & u2 & c2 & Hk & _ & -> & -> & ->).
    destruct (IH _ _ _ _ _ _ Heps Hk (costs_never_increase_prefix _ Hmon))
      as (b & l00 & v & x & Hb & _ & ->).
    injection Hb as <-.
    assert (Hle : (c2 <= best_cost b0)%Q).
    { apply (Hmon l00 (mkSolve v (inr (x, best_u b0, best_cost b0)))
               (mkSolve (option_map (@detach Data Graph) u0)
                        (inr (x2, u2, c2)))
               [] x (best_u b0) (best_cost b0) x2 u2 c2);
        [rewrite <- app_assoc|..]; reflexivity. }
    assert (Hacc : Qle_bool c2 (best_cost b0 + eps self) = true).
    { apply Qle_bool_iff. eapply Qle_trans; [exact Hle|].
      rewrite <- (Qplus_0_r (best_cost b0)) at 1.
      apply Qplus_le_r. exact Heps. }
    cbn. rewrite Hacc.
    eexists (mkBest u2 c2), _, _, x2. repeat split.
Qed.

(** X8. With [eps >= 0], as long as the costs of the solves of the loop
    never increase, every iterate is accepted: when the loop ends [best]
    holds the last iterate and its cost, so that with [step > 1] the final
    solve continues from the last iterate. *)
Theorem best_is_last_iterate_when_costs_never_increase :
  forall current_u self best u self' l,
    (1 <= step self)%Z ->
    (0 <= eps self)%Q ->
    loop Qle_bool Qplus LQR Qw p x_init dt current_u self
      = (Ok (best, u), self', l) ->
    costs_never_increase l ->
    exists b l0 v x,
      best = Some b /\ u = Some (best_u b) /\
      l = l0 ++ [mkSolve v (inr (x, best_u b, best_cost b))].
Proof.
  intros current_u self best u self' l Hstep Heps Hl Hmon.
  rewrite loop_run in Hl.
  replace (range_len (step self))
    with (S (Nat.pred (range_len (step self)))) in Hl
    by (unfold range_len; lia).
  exact (latest_is_best _ _ _ Heps Hl Hmon).
Qed.

(** X9. [MPC(system, T)] iterates ten times within a tolerance of 1e-4: a
    call on a driver built with the defaults performs at most eleven
    solves, and exactly eleven when it returns. *)
Theorem default_driver_solves :
  forall (sys : System) (horizon : Z) current_u,
    let self := __init__ sys horizon None None in
    let run := forward Qle_bool Qplus LQR Qw p x_init dt current_u self in
    step self = 10%Z /\ eps self = eps_default /\
    system self = sys /\ T self = horizon /\
    (length (snd run) <= 11)%nat /\
    match fst (fst run) with
    | Ok _ => length (snd run) = 11%nat
    | Raise _ => True
    end.
Proof.
  intros sys horizon current_u self run.
  destruct (forward_trace Qle_bool Qplus LQR Qw p x_init dt current_u self)
    as (l0 & s & Hl & Hlen & _ & H).
  fold run in Hl, H. rewrite Hl, length_app.
  change (range_len (step self)) with 10%nat in *. cbn [length].
  repeat split; [lia|].
  destruct (fst (fst run)); [lia|exact I].
Qed.

End CostOrder.

(** ** The further theorems at concrete calls *)

(** X2 with [step = 2]: three solves. *)
Lemma solves_per_call_witness :
  length (snd (scripted_forward [5; 3]%Q 2 eps_default)) = 3%nat.
Proof.
  destruct (@solves_per_call nat unit Q Qle_bool Qplus
              unit unit unit unit unit unit (scripted [5; 3]%Q) tt tt tt tt
              None (scripted_mpc 2 eps_default)) as [_ H].
  exact (H _ eq_refl).
Defined.

(** X3 on a solver that fails from the first iterate on, with [step = 3]:
    the second solve fails and the call raises its failure. *)
Lemma solver_failure_propagates_witness :
  fst (fst (forward Qle_bool Qplus (scripted_failing 1 [5; 3]%Q)
              tt tt tt tt None (scripted_mpc 3 eps_default)))
  = Raise (SolverError tt).
Proof.
  destruct (@solver_failure_propagates nat unit Q Qle_bool Qplus
              unit unit unit unit unit unit (scripted_failing 1 [5; 3]%Q)
              tt tt tt tt None (scripted_mpc 3 eps_default)) as [H _].
  destruct (H (mkSolve (Some (detach (scripted_u 5 1))) (inl tt)) tt)
    as [Hr _]; [right; left; reflexivity|reflexivity|exact Hr].
Defined.

(** X4 on a solver whose second iterate lacks the batch dimension, with
    [step = 2]. *)
Lemma assertion_guards_loop_solves_witness :
  fst (fst (forward Qle_bool Qplus (scripted_flat 1 [5; 3]%Q)
              tt tt tt tt None (scripted_mpc 2 eps_default)))
  = Raise AssertionError.
Proof.
  apply (proj2 (@assertion_guards_loop_solves nat unit Q Qle_bool Qplus
                  unit unit unit unit unit unit (scripted_flat 1 [5; 3]%Q)
                  tt tt tt tt None (scripted_mpc 2 eps_default))).
  exists [mkSolve None (inr (scripted_x 5 1, scripted_u 5 1, 5%Q))],
    (mkSolve (Some (detach (scripted_u 5 1)))
       (inr (mkTensor [6; 1]%nat 2%nat true (Some tt),
             mkTensor [5; 1]%nat 2%nat true (Some tt), 3%Q))).
  split; [reflexivity|]. split; [apply le_n|].
  split; [eexists; reflexivity|reflexivity].
Defined.

(** The terminal solve may return what the assertion would reject: with
    [step = 0] the same solver's flat first iterate is returned. *)
Example terminal_solve_not_asserted :
  fst (fst (forward Qle_bool Qplus (scripted_flat 0 [5; 3]%Q)
              tt tt tt tt None (scripted_mpc 0 eps_default)))
  = Ok (mkTensor [6; 1]%nat 1%nat true (Some tt),
        mkTensor [5; 1]%nat 1%nat true (Some tt), 5%Q).
Proof. reflexivity. Qed.

(** X6 with [step = 1]. *)
Lemma single_iteration_discarded_witness :
  fst (fst (scripted_forward [5; 3]%Q 1 eps_default))
  = fst (fst (scripted_forward [5; 3]%Q 0 eps_default)).
Proof.
  destruct (@single_iteration_discarded nat unit Q Qle_bool Qplus
              unit unit unit unit unit unit (scripted [5; 3]%Q) tt tt tt tt
              None (scripted_mpc 1 eps_default) _ _ _ _ eq_refl eq_refl)
    as [_ H].
  exact H.
Defined.

(** The rational costs are totally ordered. *)
Lemma Qle_bool_total_on : total_on Qle_bool (fun _ : Q => True).
Proof.
  split.
  - intros a b _ _. destruct (Qlt_le_dec a b) as [H | H].
    + left. apply Qle_bool_iff, Qlt_le_weak, H.
    + right. apply Qle_bool_iff, H.
  - intros a b c Hab Hbc. apply Qle_bool_iff.
    apply Qle_bool_iff in Hab. apply Qle_bool_iff in Hbc.
    eapply Qle_trans; eassumption.
Qed.

Lemma Qle_bool_plus_0 (a c : Q) : Qle_bool a (c + 0) = Qle_bool a c.
Proof.
  destruct (Qle_bool a c) eqn:H.
  - apply Qle_bool_iff. apply Qle_bool_iff in H.
    rewrite Qplus_0_r. exact H.
  - destruct (Qle_bool a (c + 0)) eqn:H'; [|reflexivity].
    apply Qle_bool_iff in H'. rewrite Qplus_0_r in H'.
    apply Qle_bool_iff in H'. congruence.
Qed.

(** X7 with [step = 3] and [eps = 0] on costs 5, 3 then 100: [best] holds
    the second iterate, at the least cost 3. *)
Lemma best_is_least_cost_of_loop_witness :
  exists s x,
    In s (snd (scripted_loop [5; 3; 100]%Q 3 0)) /\
    result s = inr (x, scripted_u 5 2, 3%Q) /\
    Forall (fun s' =>
              forall x' v c, result s' = inr (x', v, c) ->
                             Qle_bool 3 c = true)
           (snd (scripted_loop [5; 3; 100]%Q 3 0)).
Proof.
  destruct (@best_is_least_cost_of_loop nat unit Q Qle_bool Qplus
              unit unit unit unit unit unit (scripted [5; 3; 100]%Q)
              tt tt tt tt (fun _ => True) None (scripted_mpc 3 0)
              _ _ _ _ (mkBest (scripted_u 5 2) 3%Q)
              Qle_bool_total_on
              (fun a c _ => Qle_bool_plus_0 a c)
              eq_refl (fun _ _ _ _ _ _ => I) eq_refl)
    as [(s & x & Hin & Hr) Hmin].
  exists s, x. split; [exact Hin|]. split; [exact Hr|].
  apply Forall_forall. intros s' Hin' x' v c Hr'.
  exact (Hmin _ _ _ _ Hin' Hr').
Defined.

(** X8 with [step = 2] on costs 5 then 3. *)
Lemma best_is_last_iterate_when_costs_never_increase_witness :
  exists b : Best nat unit Q,
    fst (fst (scripted_loop [5; 3]%Q 2 eps_default))
      = Ok (Some b, Some (best_u b)) /\ best_u b = scripted_u 5 2.
Proof.
  destruct (@best_is_last_iterate_when_costs_never_increase nat unit unit
              unit unit unit unit unit (scripted [5; 3]%Q) tt tt tt tt None
              (scripted_mpc 2 eps_default) _ _ _ _
              ltac:(cbn; lia) ltac:(vm_compute; discriminate) eq_refl)
    as (b & l0 & v & x & Hb & Hu & Hl).
  - intros l1 s1 s2 l2 x1 u1 c1 x2 u2 c2 Hl H1 H2.
    destruct l1 as [|a l1].
    + injection Hl as <- <- _. cbn in H1, H2.
      injection H1 as _ _ <-. injection H2 as _ _ <-.
      vm_compute. discriminate.
    + exfalso. injection Hl as _ Hl.
      destruct l1 as [|a' l1]; [discriminate Hl|].
      injection Hl as _ Hl. destruct l1; discriminate Hl.
  - exists b. injection Hb as <-. split; reflexivity.
Defined.

(** ** The quadrotor step *)

Section QuadProperties.

Variable F : Type.
Variables add sub mul div : F -> F -> F.
Variables sin cos tan : F -> F.
Variables half two six : F.

Local Abbreviation dynamics' := (Quad.dynamics add sub mul div sin cos tan).
Local Abbreviation step' :=
  (Quad.state_transition add sub mul div sin cos tan half two six).

Lemma dynamics_shape (self : Quad.params F) (state input : list F) :
  match dynamics' self state input with
  | inr f =>
      length state = 12%nat /\ length input = 4%nat /\ length f = 12%nat
  | inl _ => length state <> 12%nat \/ length input <> 4%nat
  end.
Proof.
  unfold Quad.dynamics.
  destruct state
    as [|a1 [|a2 [|a3 [|a4 [|a5 [|a6 [|a7 [|a8 [|a9 [|a10 [|a11 [|a12
        [|a13 state]]]]]]]]]]]]];
    try (left; cbn; lia).
  destruct input as [|b1 [|b2 [|b3 [|b4 [|b5 input]]]]];
    try (right; cbn; lia).
  destruct (Quad._J self) as [[[[? ?] ?] [[? ?] ?]] [[? ?] ?]].
  cbn. repeat split.
Qed.

Lemma tensor_add_length (a b : list F) :
  length (Quad.tensor_add add a b) = Nat.min (length a) (length b).
Proof. unfold Quad.tensor_add. rewrite length_map. apply length_combine. Qed.

Lemma scaled_length c (v : list F) :
  length (Quad.scaled mul c v) = length v.
Proof. apply length_map. Qed.

Lemma times_length (v : list F) c : length (Quad.times mul v c) = length v.
Proof. apply length_map. Qed.

(** The derivative at a stage of the step exists as soon as the first
    does. *)
Lemma dynamics_stage (self : Quad.params F) (state input f : list F) c :
  length state = 12%nat -> length input = 4%nat -> length f = 12%nat ->
  exists f',
    dynamics' self (Quad.tensor_add add state (Quad.scaled mul c f)) input
      = inr f' /\ length f' = 12%nat.
Proof.
  intros Hs Hi Hf.
  pose proof (dynamics_shape self
                (Quad.tensor_add add state (Quad.scaled mul c f)) input)
    as H.
  destruct (dynamics' self _ input) as [e|f'].
  - exfalso. rewrite tensor_add_length, scaled_length, Hs, Hf, Hi in H.
    cbn in H. destruct H as [H|H]; apply H; reflexivity.
  - exists f'. split; [reflexivity|apply H].
Qed.

(** X10. For a single state and input, a step of the quadrotor returns
    twelve components when the state has twelve and the input four, and
    raises the exception of the unpacking otherwise. *)
Theorem state_transition_shape :
  forall (self : Quad.params F) (state input : list F),
    match Quad.state_transition add sub mul div sin cos tan half two six
            self state input with
    | inr out =>
        length state = 12%nat /\ length input = 4%nat /\
        length out = 12%nat
    | inl Quad.UnpackError =>
        length state <> 12%nat \/ length input <> 4%nat
    end.
Proof.
  intros self state input. unfold Quad.state_transition.
  pose proof (dynamics_shape self state input) as H1.
  destruct (dynamics' self state input) as [[]|f1]; [exact H1|].
  destruct H1 as (Hs & Hi & Hf1).
  destruct (@dynamics_stage self state input f1
              (mul half (Quad._tau self)) Hs Hi Hf1) as (f2 & -> & Hf2).
  destruct (@dynamics_stage self state input f2
              (mul half (Quad._tau self)) Hs Hi Hf2) as (f3 & -> & Hf3).
  destruct (@dynamics_stage self state input f3 (Quad._tau self)
              Hs Hi Hf3) as (f4 & -> & Hf4).
  repeat split; try assumption.
  rewrite !tensor_add_length, times_length, !tensor_add_length,
    !scaled_length, Hs, Hf1, Hf2, Hf3, Hf4.
  reflexivity.
Qed.

(** X11. The step does not depend on where the quadrotor is: two states
    that differ in position alone have the same attitude, rates and
    velocities after the step, and their positions move by the same
    increments. *)
Theorem state_transition_position_independent :
  forall (self : Quad.params F) roll pitch yaw wx wy wz vx vy vz
         x y z x' y' z' input,
    match
      Quad.state_transition add sub mul div sin cos tan half two six self
        [roll; pitch; yaw; wx; wy; wz; vx; vy; vz; x; y; z] input,
      Quad.state_transition add sub mul div sin cos tan half two six self
        [roll; pitch; yaw; wx; wy; wz; vx; vy; vz; x'; y'; z'] input
    with
    | inr out, inr out' =>
        firstn 9 out = firstn 9 out' /\
        exists dx dy dz,
          skipn 9 out = [add x dx; add y dy; add z dz] /\
          skipn 9 out' = [add x' dx; add y' dy; add z' dz]
    | inl _, inl _ => True
    | _, _ => False
    end.
Proof.
  intros self roll pitch yaw wx wy wz vx vy vz x y z x' y' z' input.
  unfold Quad.state_transition, Quad.dynamics.
  destruct input as [|b1 [|b2 [|b3 [|b4 [|b5 input]]]]]; try exact I.
  destruct (Quad._J self) as [[[[? ?] ?] [[? ?] ?]] [[? ?] ?]].
  cbn. split; [reflexivity|].
  eexists _, _, _. split; reflexivity.
Qed.

End QuadProperties.

(** ** The loss of the tuner *)

Section TunerProperties.

Variables Tens Num : Type.
Variable slice : Tens -> nat -> nat -> Tens.
Variable tensor_sub : Tens -> Tens -> Tens.
Variable norm : Tens -> Num.
Variable num_add : Num -> Num -> Num.
Variable num_div : Num -> Z -> Num.
Variable of_int : Z -> Num.
Variables Params Control Dt : Type.
Variable get_control :
  Params -> Tens -> Tuner.RefState Tens -> option Tens -> Control.
Variable state_transition : Tens -> Control -> Dt -> Tens.

Local Abbreviation track' :=
  (Tuner.track slice tensor_sub norm num_add of_int get_control
               state_transition).

(** Once a norm was added, [loss] is a tensor and stays one. *)
Lemma track_tensor params dt refs : forall state loss,
  refs <> [] \/ (exists t, loss = Tuner.PyTensor t) ->
  exists t, snd (track' params dt refs state loss) = Tuner.PyTensor t.
Proof.
  induction refs as [|[[[[[rp rv] ra] rq] rw] rwd] refs IH];
    intros state loss H.
  - destruct H as [H | H]; [congruence|exact H].
  - cbn. apply IH. right. destruct loss; cbn; eauto.
Qed.

(** X12. [compute_loss] raises [ZeroDivisionError] on an empty list of
    reference states, where [loss] is still the integer 0 when it is
    divided by the length 0, and returns a tensor on any other list. *)
Theorem compute_loss_empty_iff_error :
  forall params initial_state (ref_states : list (Tuner.RefState Tens)) dt,
    match Tuner.compute_loss slice tensor_sub norm num_add num_div of_int
            get_control state_transition params initial_state ref_states dt
    with
    | inl Tuner.ZeroDivisionError => ref_states = []
    | inr loss => ref_states <> [] /\ exists t, loss = Tuner.PyTensor t
    end.
Proof.
  intros params initial_state ref_states dt. unfold Tuner.compute_loss.
  destruct ref_states as [|r refs]; [reflexivity|].
  assert (H : exists t,
            snd (track' params dt (r :: refs) initial_state
                   (Tuner.PyInt Num 0)) = Tuner.PyTensor t)
    by (apply track_tensor; left; discriminate).
  destruct H as [t Ht]. rewrite Ht. cbn. split; [discriminate|eauto].
Qed.

End TunerProperties.
